(** * Tombstone generation: [debuggerd/libdebuggerd/tombstone.cpp]

    A shallow embedding of [engrave_tombstone_ucontext] and
    [engrave_tombstone].  The operating system (process identity, the
    [/proc] files, [prctl], the descriptor table) is an environment of
    oracles plus an explicit descriptor table; everything the two functions
    send out (diagnostics, the serialized proto, the text lines) is
    collected in order. *)

From Stdlib Require Import ZArith List Sorted Lia Ascii.
From stdpp Require Import base list strings pretty.

Open Scope Z_scope.

(** ** Data model *)

Definition pid_t := Z.

(** [siginfo_t] (libc): the signal-detail record. *)
Record siginfo_t := {
  si_signo : Z;
  si_errno : Z;
  si_code : Z;
  si_addr : Z
}.

(** [ucontext_t] (libc): the raw machine context, opaque here. *)
Definition ucontext_t := list Z.

(** [unwindstack::ArchEnum] and [unwindstack::Regs] (libunwindstack). *)
Inductive ArchEnum :=
  | ARCH_UNKNOWN | ARCH_ARM | ARCH_ARM64 | ARCH_X86 | ARCH_X86_64 | ARCH_RISCV64.

Record Regs := {
  regs_arch : ArchEnum;
  regs_raw : ucontext_t
}.

(** [Regs::CreateFromUcontext]: a null pointer for an architecture the
    library does not know, a typed snapshot otherwise. *)
Definition CreateFromUcontext (arch : ArchEnum) (ucontext : ucontext_t) : option Regs :=
  match arch with
  | ARCH_UNKNOWN => None
  | _ => Some {| regs_arch := arch; regs_raw := ucontext |}
  end.

(** [ThreadInfo] and [ProcessInfo]: the fields [tombstone.cpp] initializes.
    Pointers are options ([nullptr] is [None]).  The records live in a
    module so that a field can still be named where a local variable of the
    source has the same name ([thread.(types.pid)]). *)
Module types.
Record ThreadInfo := {
  registers : option Regs;
  tagged_addr_ctrl : Z;
  pac_enabled_keys : Z;
  uid : pid_t;
  tid : pid_t;
  thread_name : string;
  pid : pid_t;
  command_line : list string;
  selinux_label : string;
  signo : Z;
  siginfo : option siginfo_t
}.

Record ProcessInfo := {
  abort_msg_address : Z
}.
End types.
Import types.

(** Modelled from the spec: the declaration of [ThreadInfo]
    ([libdebuggerd/types.h]) is not among the sources, so the default member
    values are taken from the data model: each hardware flag defaults to
    "unsupported", the signal-detail record is present only for the crashing
    thread.  [-1] is also what [prctl] returns when the kernel does not know
    the attribute. *)
Definition unsupported : Z := -1.

(** Modelled from the spec: [ThreadInfo{}] for the declaration that is not
    among the sources; it is what [threads[k]] inserts for a new key, and what a
    designated initializer leaves in the members it does not name.  A member
    without an initializer is value-initialized: a null pointer, zero, an
    empty string or vector. *)
Definition ThreadInfo_init : ThreadInfo := {|
  registers := None;
  tagged_addr_ctrl := unsupported;
  pac_enabled_keys := unsupported;
  uid := 0;
  tid := 0;
  thread_name := "";
  pid := 0;
  command_line := [];
  selinux_label := "";
  signo := 0;
  siginfo := None
|}.

(** ** [std::map<pid_t, V>]

    An ordered map: a list of bindings kept in strictly ascending key
    order, which is the order a range-for visits them in. *)
Section StdMap.
Context {V : Type}.

Definition std_map := list (Z * V).

Fixpoint map_find (k : Z) (m : std_map) : option V :=
  match m with
  | [] => None
  | (k', v) :: m' => if k =? k' then Some v else map_find k m'
  end.

(** [m[k] = v] *)
Fixpoint map_assign (k : Z) (v : V) (m : std_map) : std_map :=
  match m with
  | [] => [(k, v)]
  | (k', v') :: m' =>
      if k <? k' then (k, v) :: m
      else if k =? k' then (k, v) :: m'
      else (k', v') :: map_assign k v m'
  end.

(** [m[k]] used for its side effect: a missing key is inserted with a
    value-initialized [V]. *)
Definition map_subscript (init : V) (k : Z) (m : std_map) : std_map :=
  match map_find k m with
  | Some _ => m
  | None => map_assign k init m
  end.

(** Reading through a reference obtained from [m[k]]. *)
Definition map_ref (init : V) (k : Z) (m : std_map) : V :=
  match map_find k m with
  | Some v => v
  | None => init
  end.

Definition map_keys (m : std_map) : list Z := map fst m.

(** The representation invariant of [std::map]. *)
Definition map_ok (m : std_map) : Prop := StronglySorted Z.lt (map_keys m).
End StdMap.
Arguments std_map : clear implicits.

(** ** The report (the [Tombstone] message) *)

Record Frame := {
  frame_pc : Z;
  frame_symbol : option string
}.

(** The unwinder boundary: one call per thread, and the cached memory it
    reads the abort message through.  [None] is a failed unwind or read. *)
Record Unwinder := {
  Unwind : ThreadInfo -> option (list Frame);
  ReadString : Z -> option string
}.

Definition ErrorCode := Z.
Definition Architecture := ArchEnum.
Definition OpenFilesList := list (Z * string).

Inductive AbortMessage :=
  | Absent
  | Unreadable
  | Message (text : string).

Record Thread := {
  thread_id : pid_t;
  thread_state : ThreadInfo;
  thread_backtrace : option (list Frame);
  thread_guest_backtrace : option (list Frame)
}.

Record Tombstone := {
  tomb_tid : pid_t;
  tomb_pid : option pid_t;
  tomb_uid : option pid_t;
  tomb_command_line : option (list string);
  tomb_selinux_label : option string;
  tomb_signal_info : option siginfo_t;
  tomb_abort_message : AbortMessage;
  tomb_threads : list Thread;
  tomb_open_files : option OpenFilesList;
  tomb_guest_arch : option Architecture
}.

(** ** The environment and what the code sends out *)

Inductive prctl_option := PR_GET_TAGGED_ADDR_CTRL | PR_PAC_GET_ENABLED_KEYS.

Record Env := {
  getuid : pid_t;
  getpid : pid_t;
  gettid : pid_t;
  CurrentArch : ArchEnum;
  (** [/proc/<tid>/comm], [/proc/<pid>/cmdline], [/proc/self/attr/current];
      [None] when the file cannot be read *)
  proc_comm : pid_t -> option string;
  proc_cmdline : pid_t -> option (list string);
  proc_attr_current : option string;
  (** [None] when the kernel rejects the request *)
  sys_prctl : prctl_option -> option Z;
  (** [/proc/<pid>/task]: the listed tids, or the [errno] of [opendir] *)
  proc_task : pid_t -> Z + list pid_t;
  (** [AndroidLocalUnwinder::Initialize] on the cached process memory *)
  Initialize : ErrorCode + Unwinder;
  (** [RLIMIT_NOFILE] *)
  fd_limit : nat;
  (** the [errno] a write to an open file description fails with, if it does *)
  write_error : nat -> option Z
}.

Inductive logtype := HEADER | LOGS.

Inductive LogMsg :=
  | failed_to_open_task (pid : pid_t) (errno : Z)
  | failed_to_init_unwinder (code : ErrorCode)
  | failed_to_write_proto (errno : Z).

Inductive Output :=
  (** [async_safe_format_log(ANDROID_LOG_ERROR, LOG_TAG, ...)] *)
  | Diagnostic (msg : LogMsg)
  (** the encoded message received by an open file description; the wire
      format is not modelled, the sink holds the message it decodes to *)
  | ProtoBytes (file : nat) (t : Tombstone)
  (** one [_LOG] call, with the file description its [tfd] names, if any *)
  | TextLine (file : option nat) (ltype : logtype) (line : string).

Definition diagnostics (out : list Output) : list LogMsg :=
  omap (fun o => match o with Diagnostic m => Some m | _ => None end) out.

Definition proto_written (out : list Output) : list (nat * Tombstone) :=
  omap (fun o => match o with ProtoBytes f t => Some (f, t) | _ => None end) out.

Definition text_lines (out : list Output) : list (logtype * string) :=
  omap (fun o => match o with TextLine _ ty l => Some (ty, l) | _ => None end) out.

(** ** The descriptor table and the effect monad *)

(** Slot [n] holds the open file description descriptor [n] names. *)
Abbreviation fd_table := (list (option nat)).

Definition fd_get (fds : fd_table) (fd : Z) : option nat :=
  if fd <? 0 then None
  else match fds !! Z.to_nat fd with
       | Some slot => slot
       | None => None
       end.

Fixpoint first_free (fds : fd_table) : nat :=
  match fds with
  | Some _ :: fds' => S (first_free fds')
  | _ => 0%nat
  end.

Definition fd_install (n : nat) (file : nat) (fds : fd_table) : fd_table :=
  if (n <? length fds)%nat then <[n := Some file]> fds else fds ++ [Some file].

(** A computation reads and updates the descriptor table and appends to
    what has been sent out. *)
Definition M (A : Type) : Type := fd_table -> A * fd_table * list Output.

#[export] Instance M_ret : MRet M := fun A a fds => (a, fds, []).
#[export] Instance M_bind : MBind M := fun A B k m fds =>
  let '(a, fds1, out1) := m fds in
  let '(b, fds2, out2) := k a fds1 in
  (b, fds2, out1 ++ out2).

Definition result {A} (m : M A) (fds : fd_table) : A := (m fds).1.1.
Definition fds_after {A} (m : M A) (fds : fd_table) : fd_table := (m fds).1.2.
Definition outputs {A} (m : M A) (fds : fd_table) : list Output := (m fds).2.

Definition EBADF : Z := 9.

Definition async_safe_format_log (msg : LogMsg) : M unit :=
  fun fds => ((), fds, [Diagnostic msg]).

Definition close (fd : Z) : M unit :=
  fun fds => ((), if fd <? 0 then fds else <[Z.to_nat fd := None]> fds, []).

(** [~unique_fd]: closes what it owns, [-1] owns nothing. *)
Definition unique_fd_reset (fd : Z) : M unit :=
  if fd =? -1 then mret () else close fd.

(** [log_t] ([libdebuggerd/utility.h]): the members the source sets. *)
Module utility.
Record log_t := {
  current_tid : pid_t;
  crashed_tid : pid_t;
  tfd : Z;
  amfd_data : option string
}.
End utility.
Import utility.

(** Modelled from the spec: [_LOG] ([libdebuggerd/utility.cpp]) is not among
    the sources.  It is the per-line consumer of the text sink: the line
    goes to the sink behind [tfd], and an accumulating buffer, when there is
    one, receives it as well. *)
Definition _LOG (log : log_t) (ltype : logtype) (line : string) : M log_t :=
  fun fds =>
    ({| current_tid := current_tid log;
        crashed_tid := crashed_tid log;
        tfd := tfd log;
        amfd_data := (fun buf => buf +:+ line) <$> amfd_data log |},
     fds,
     [TextLine (fd_get fds (tfd log)) ltype line]).

(** ** Modelled collaborators of the report *)

(** Modelled from the spec: the per-thread part of the builder
    ([libdebuggerd/tombstone_proto.cpp], not among the sources): one unwinder
    call per thread, a failed unwind leaving that thread's backtrace
    unavailable; in dual-architecture mode the guest unwinder is called too. *)
Definition dump_thread (unwinder : Unwinder) (guest_unwinder : option Unwinder)
    (entry : pid_t * ThreadInfo) : Thread :=
  {| thread_id := entry.1;
     thread_state := entry.2;
     thread_backtrace := Unwind unwinder entry.2;
     thread_guest_backtrace := guest_unwinder ≫= (fun g => Unwind g entry.2) |}.

(** Modelled from the spec: the abort message is read by address through
    the unwinder's memory; zero means absent, a failed read unreadable. *)
Definition dump_abort_message (unwinder : Unwinder) (process_info : ProcessInfo)
    : AbortMessage :=
  if abort_msg_address process_info =? 0 then Absent
  else match ReadString unwinder (abort_msg_address process_info) with
       | Some text => Message text
       | None => Unreadable
       end.

(** Modelled from the spec: [engrave_tombstone_proto]
    ([libdebuggerd/tombstone_proto.cpp]) is not among the sources.  The
    builder is a pure aggregation: process identity and signal detail from
    the crashing thread's entry, the abort message, one entry per thread in
    the order of the mapping, the open files and the guest architecture as
    given. *)
Definition engrave_tombstone_proto (unwinder : Unwinder)
    (threads : std_map ThreadInfo) (target_tid : pid_t)
    (process_info : ProcessInfo) (open_files : option OpenFilesList)
    (guest_arch : option Architecture) (guest_unwinder : option Unwinder)
    : Tombstone :=
  let target_thread := map_find target_tid threads in
  {| tomb_tid := target_tid;
     tomb_pid := types.pid <$> target_thread;
     tomb_uid := types.uid <$> target_thread;
     tomb_command_line := types.command_line <$> target_thread;
     tomb_selinux_label := types.selinux_label <$> target_thread;
     tomb_signal_info := target_thread ≫= types.siginfo;
     tomb_abort_message := dump_abort_message unwinder process_info;
     tomb_threads := dump_thread unwinder guest_unwinder <$> threads;
     tomb_open_files := open_files;
     tomb_guest_arch := guest_arch |}.

(** Modelled from the spec: the renderer
    ([libdebuggerd/tombstone_proto_to_text.cpp], not among the sources) writes
    an absent optional field as an explicit marker. *)
Definition or_unavailable {A} (show : A -> string) (field : option A) : string :=
  match field with
  | Some a => show a
  | None => "unavailable"
  end.

(** Modelled from the spec: a frame is an address and an optional symbol. *)
Definition render_frame (index : nat) (frame : Frame) : string :=
  "  #" +:+ pretty index +:+ " pc " +:+ pretty (frame_pc frame) +:+ " "
    +:+ or_unavailable id (frame_symbol frame).

(** Modelled from the spec: a thread without backtrace is marked as such. *)
Definition render_backtrace (backtrace : option (list Frame)) : list string :=
  match backtrace with
  | Some frames => imap render_frame frames
  | None => ["no backtrace available"]
  end.

(** Modelled from the spec: the per-thread body lines (not header lines). *)
Definition render_thread (thread : Thread) : list (string * bool) :=
  (fun line => (line, false)) <$>
    (("thread " +:+ pretty (thread_id thread) +:+ " "
        +:+ types.thread_name (thread_state thread))
     :: render_backtrace (thread_backtrace thread)
     ++ match thread_guest_backtrace thread with
        | Some frames => "guest backtrace:" :: imap render_frame frames
        | None => []
        end).

(** Modelled from the spec: address zero renders as absent, a failed read
    as unreadable, never dropped. *)
Definition render_abort_message (message : AbortMessage) : string :=
  match message with
  | Absent => "absent"
  | Unreadable => "unreadable"
  | Message text => text
  end.

(** Modelled from the spec: an open file is a descriptor number and a
    description. *)
Definition render_open_file (file : Z * string) : string :=
  "  fd " +:+ pretty file.1 +:+ ": " +:+ file.2.

(** Modelled from the spec: the header names the process, the signal and
    the abort message; an open-files list that was not collected is marked. *)
Definition render_header (tombstone : Tombstone) : list (string * bool) :=
  (fun line => (line, true)) <$>
    (("pid: " +:+ or_unavailable pretty (tomb_pid tombstone)
        +:+ ", tid: " +:+ pretty (tomb_tid tombstone)
        +:+ ", uid: " +:+ or_unavailable pretty (tomb_uid tombstone))
     :: ("signal " +:+ or_unavailable (fun info => pretty (si_signo info))
                         (tomb_signal_info tombstone))
     :: ("abort message: " +:+ render_abort_message (tomb_abort_message tombstone))
     :: match tomb_open_files tombstone with
        | Some files => "open files:" :: (render_open_file <$> files)
        | None => ["open files: unavailable"]
        end).

(** Modelled from the spec: the rendering is a pure function of the report
    giving a finite sequence of (line, is-header) pairs: the header, then one
    section per thread in the order of the report. *)
Definition render (tombstone : Tombstone) : list (string * bool) :=
  render_header tombstone ++ mbind render_thread (tomb_threads tombstone).

(** Modelled from the spec: the callback is called on each rendered line,
    in order. *)
Fixpoint for_each_line {S} (callback : S -> string -> bool -> M S)
    (lines : list (string * bool)) (s : S) : M S :=
  match lines with
  | [] => mret s
  | (line, should_log) :: rest =>
      s' ← callback s line should_log;
      for_each_line callback rest s'
  end.

(** Modelled from the spec: [tombstone_proto_to_text]
    ([libdebuggerd/tombstone_proto_to_text.cpp]) is not among the sources; it
    feeds the rendering of the report to the callback. *)
Definition tombstone_proto_to_text {S} (tombstone : Tombstone)
    (callback : S -> string -> bool -> M S) (s : S) : M S :=
  for_each_line callback (render tombstone) s.

Definition newline : string := String "010"%char "".

(** What the lambda of [engrave_tombstone] makes of a rendered line. *)
Definition logged_line (entry : string * bool) : logtype * string :=
  (if entry.2 then HEADER else LOGS, entry.1 +:+ newline).

(** ** The source functions *)

Section Tombstone.
Variable E : Env.

(** [dup(2)]: the lowest free descriptor, naming the same open file
    description; [-1] for a descriptor that is not open, or when the
    table is full. *)
Definition dup (fd : Z) : M Z :=
  fun fds =>
    match fd_get fds fd with
    | None => (-1, fds, [])
    | Some file =>
        let n := first_free fds in
        if (n <? fd_limit E)%nat
        then (Z.of_nat n, fd_install n file fds, [])
        else (-1, fds, [])
    end.

(** [Tombstone::SerializeToFileDescriptor]: the sink receives the encoded
    message, or the write fails with an [errno]. *)
Definition SerializeToFileDescriptor (tombstone : Tombstone) (fd : Z) : M (Z + unit) :=
  fun fds =>
    match fd_get fds fd with
    | None => (inl EBADF, fds, [])
    | Some file =>
        match write_error E file with
        | Some errno => (inl errno, fds, [])
        | None => (inr (), fds, [ProtoBytes file tombstone])
        end
    end.

Definition prctl (option : prctl_option) : Z :=
  match sys_prctl E option with
  | Some value => value
  | None => -1
  end.

(** [android::base::ReadFileToString]: the content stays empty when the
    file cannot be read. *)
Definition ReadFileToString (file : option string) : bool * string :=
  match file with
  | Some content => (true, content)
  | None => (false, "")
  end.

(** Modelled from the spec: [get_thread_name] ([debuggerd/util.cpp]) is not
    among the sources.  It is a best-effort read that defaults to empty on
    failure. *)
Definition get_thread_name (tid : pid_t) : string :=
  (ReadFileToString (proc_comm E tid)).2.

(** Modelled from the spec: [get_command_line] ([debuggerd/util.cpp]) is not
    among the sources.  It is a best-effort read of the ordered sequence of
    arguments that defaults to empty on failure. *)
Definition get_command_line (pid : pid_t) : list string :=
  match proc_cmdline E pid with
  | Some arguments => arguments
  | None => []
  end.

(** Modelled from the spec: [iterate_tids] ([debuggerd/util.cpp]) is not
    among the sources.  It reads the thread listing of the process and
    calls back on each listed tid; when the listing cannot be read it
    calls back on nothing and returns false. *)
Definition iterate_tids {S} (pid : pid_t) (callback : S -> pid_t -> S) (s : S)
    : bool * S :=
  match proc_task E pid with
  | inl _ => (false, s)
  | inr tids => (true, fold_left callback tids s)
  end.

(** The [errno] [opendir] leaves when the listing cannot be read. *)
Definition task_errno (pid : pid_t) : Z :=
  match proc_task E pid with
  | inl errno => errno
  | inr _ => 0
  end.

(** Lines 56-85: the crashing thread's [ThreadInfo].  [siginfo] is the
    record the handler was given (the source dereferences the pointer);
    [#if defined(__aarch64__)] is [CurrentArch E = ARCH_ARM64]. *)
Definition crashing_thread (siginfo : siginfo_t) (ucontext : ucontext_t) : ThreadInfo :=
  let uid := getuid E in
  let pid := getpid E in
  let target_tid := gettid E in
  let thread_name := get_thread_name target_tid in
  let command_line := get_command_line pid in
  let regs := CreateFromUcontext (CurrentArch E) ucontext in
  let selinux_label := (ReadFileToString (proc_attr_current E)).2 in
  {| registers := regs;
     uid := uid;
     tid := target_tid;
     thread_name := thread_name;
     pid := pid;
     command_line := command_line;
     selinux_label := selinux_label;
     siginfo := Some siginfo;
     signo := si_signo siginfo;
     (* Only supported on aarch64 for now. *)
     tagged_addr_ctrl :=
       match CurrentArch E with
       | ARCH_ARM64 => prctl PR_GET_TAGGED_ADDR_CTRL
       | _ => types.tagged_addr_ctrl ThreadInfo_init
       end;
     pac_enabled_keys :=
       match CurrentArch E with
       | ARCH_ARM64 => prctl PR_PAC_GET_ENABLED_KEYS
       | _ => types.pac_enabled_keys ThreadInfo_init
       end |}.

(** Lines 87-100: the lambda.  [thread] is the reference taken at line 86,
    read in the map as it is when the lambda runs. *)
Definition sibling_thread (pid target_tid : pid_t)
    (threads : std_map ThreadInfo) (tid : pid_t) : std_map ThreadInfo :=
  if target_tid =? tid then threads
  else
    let thread := map_ref ThreadInfo_init pid threads in
    map_assign tid
      {| uid := thread.(types.uid);
         tid := tid;
         pid := thread.(types.pid);
         command_line := thread.(types.command_line);
         thread_name := get_thread_name tid;
         tagged_addr_ctrl := thread.(types.tagged_addr_ctrl);
         pac_enabled_keys := thread.(types.pac_enabled_keys);
         registers := types.registers ThreadInfo_init;
         selinux_label := types.selinux_label ThreadInfo_init;
         signo := types.signo ThreadInfo_init;
         siginfo := types.siginfo ThreadInfo_init |}
      threads.

(** Lines 75-100: the tid-to-[ThreadInfo] mapping, and whether the
    listing could be read. *)
Definition collect_threads (siginfo : siginfo_t) (ucontext : ucontext_t)
    : bool * std_map ThreadInfo :=
  let pid := getpid E in
  let target_tid := gettid E in
  let threads : std_map ThreadInfo := [] in
  let threads := map_assign target_tid (crashing_thread siginfo ucontext) threads in
  let threads := map_subscript ThreadInfo_init pid threads in
  iterate_tids pid (sibling_thread pid target_tid) threads.

(** Lines 124-150. *)
Definition engrave_tombstone (output_fd proto_fd : Z) (unwinder : Unwinder)
    (threads : std_map ThreadInfo) (target_thread : pid_t)
    (process_info : ProcessInfo) (open_files : option OpenFilesList)
    (amfd_data : option string) (guest_arch : option Architecture)
    (guest_unwinder : option Unwinder) : M (option string) :=
  let tombstone :=
    engrave_tombstone_proto unwinder threads target_thread process_info
      open_files guest_arch guest_unwinder in
  (if negb (proto_fd =? -1) then
     written ← SerializeToFileDescriptor tombstone proto_fd;
     match written with
     | inr _ => mret ()
     | inl errno => async_safe_format_log (failed_to_write_proto errno)
     end
   else mret ());;
  let log :=
    {| current_tid := target_thread;
       crashed_tid := target_thread;
       tfd := output_fd;
       amfd_data := amfd_data |} in
  log' ← tombstone_proto_to_text tombstone
           (fun log line should_log =>
              _LOG log (if should_log then HEADER else LOGS) (line +:+ newline))
           log;
  unique_fd_reset proto_fd;;
  unique_fd_reset output_fd;;
  mret (log'.(utility.amfd_data)).

(** Lines 54-122.  The local [log] of lines 60-64 is never read. *)
Definition engrave_tombstone_ucontext (tombstone_fd proto_fd : Z)
    (abort_msg_address : Z) (siginfo : siginfo_t) (ucontext : ucontext_t)
    : M unit :=
  let pid := getpid E in
  let target_tid := gettid E in
  let '(listed, threads) := collect_threads siginfo ucontext in
  (if listed then mret ()
   else async_safe_format_log (failed_to_open_task pid (task_errno pid)));;
  match Initialize E with
  | inl code => async_safe_format_log (failed_to_init_unwinder code)
  | inr unwinder =>
      let process_info := {| abort_msg_address := abort_msg_address |} in
      output_fd ← dup tombstone_fd;
      proto_fd ← dup proto_fd;
      engrave_tombstone output_fd proto_fd unwinder threads target_tid
        process_info None None None None;;
      mret ()
  end.
End Tombstone.

(** ** Concrete scenarios

    A process with pid 100 and threads 100, 101 and 102, crashing with
    SIGSEGV; descriptor 3 is the tombstone file and descriptor 4 the proto
    sink. *)
Definition SIGSEGV : Z := 11.
Definition EACCES : Z := 13.
Definition EPIPE : Z := 32.

Definition segv : siginfo_t :=
  {| si_signo := SIGSEGV; si_errno := 0; si_code := 1; si_addr := 0 |}.

Definition sample_unwinder : Unwinder :=
  {| Unwind := fun thread =>
       match types.registers thread with
       | Some _ => Some [{| frame_pc := 4096; frame_symbol := Some "crash" |};
                         {| frame_pc := 8192; frame_symbol := None |}]
       | None => None
       end;
     ReadString := fun _ => None |}.

Definition sample_env (crashing_tid : pid_t) (task : Z + list pid_t)
    (init : ErrorCode + Unwinder) (werr : nat -> option Z) : Env :=
  {| getuid := 10001;
     getpid := 100;
     gettid := crashing_tid;
     CurrentArch := ARCH_X86_64;
     proc_comm := fun tid => if tid =? 100 then Some "main" else Some "worker";
     proc_cmdline := fun _ => Some ["app"; "--serve"];
     proc_attr_current := Some "u:r:untrusted_app:s0";
     sys_prctl := fun _ => None;
     proc_task := fun _ => task;
     Initialize := init;
     fd_limit := 1024;
     write_error := werr |}.

Definition no_write_error : nat -> option Z := fun _ => None.

(** The crash is on the main thread. *)
Definition main_crash : Env :=
  sample_env 100 (inr [100; 101]) (inr sample_unwinder) no_write_error.

(** The crash is on thread 101. *)
Definition worker_crash : Env :=
  sample_env 101 (inr [100; 101; 102]) (inr sample_unwinder) no_write_error.

(** The crash is on thread 101 and [/proc/100/task] cannot be opened. *)
Definition worker_crash_unlisted : Env :=
  sample_env 101 (inl EACCES) (inr sample_unwinder) no_write_error.

(** The crash is on the main thread and [/proc/100/task] cannot be opened. *)
Definition main_crash_unlisted : Env :=
  sample_env 100 (inl EACCES) (inr sample_unwinder) no_write_error.

(** The unwinder cannot be initialized. *)
Definition unwinder_broken : Env :=
  sample_env 100 (inr [100; 101]) (inl 7) no_write_error.

(** Every write to the proto sink (file description 8) fails. *)
Definition proto_sink_broken : Env :=
  sample_env 100 (inr [100; 101]) (inr sample_unwinder)
    (fun file => if (file =? 8)%nat then Some EPIPE else None).

(** Nothing can be read and an aarch64 kernel knows neither attribute. *)
Definition unreadable_proc : Env :=
  {| getuid := 10001;
     getpid := 100;
     gettid := 100;
     CurrentArch := ARCH_ARM64;
     proc_comm := fun _ => None;
     proc_cmdline := fun _ => None;
     proc_attr_current := None;
     sys_prctl := fun _ => None;
     proc_task := fun _ => inl EACCES;
     Initialize := inr sample_unwinder;
     fd_limit := 1024;
     write_error := no_write_error |}.

Definition sample_fds : fd_table := [Some 0; Some 1; Some 2; Some 7; Some 8]%nat.

Definition sample_threads : std_map ThreadInfo :=
  (collect_threads main_crash segv []).2.

(** ** Predicates used in the statements *)

(** The process-level members a sibling entry copies from [thread]. *)
Definition inherits_from (base thread : ThreadInfo) : Prop :=
  types.uid thread = types.uid base
  /\ types.pid thread = types.pid base
  /\ types.command_line thread = types.command_line base
  /\ types.tagged_addr_ctrl thread = types.tagged_addr_ctrl base
  /\ types.pac_enabled_keys thread = types.pac_enabled_keys base.

(** An entry as the lambda builds it for [tid], copying from [base]. *)
Definition synthesized (E : Env) (base : ThreadInfo) (tid : pid_t)
    (thread : ThreadInfo) : Prop :=
  inherits_from base thread
  /\ types.tid thread = tid
  /\ types.thread_name thread = get_thread_name E tid
  /\ types.registers thread = None.

Definition has_siginfo (entry : pid_t * ThreadInfo) : bool :=
  match types.siginfo entry.2 with
  | Some _ => true
  | None => false
  end.

(** What holds of the mapping while the listing is walked. *)
Definition threads_inv (target_tid : pid_t) (crashing : ThreadInfo)
    (threads : std_map ThreadInfo) : Prop :=
  map_ok threads
  /\ map_find target_tid threads = Some crashing
  /\ forall k thread, map_find k threads = Some thread -> k <> target_tid ->
       types.siginfo thread = None.

(** The entry the reference of line 86 names when the listing is walked. *)
Definition referenced_thread (E : Env) (siginfo : siginfo_t) (ucontext : ucontext_t)
    : ThreadInfo :=
  if getpid E =? gettid E then crashing_thread E siginfo ucontext
  else ThreadInfo_init.

(** A rendered line as it reaches the text sink behind [file]. *)
Definition rendered_output (file : option nat) (entry : string * bool) : Output :=
  TextLine file (logged_line entry).1 (logged_line entry).2.

(** What lines 135-140 send out. *)
Definition serialization_output (E : Env) (fds : fd_table) (proto_fd : Z)
    (tombstone : Tombstone) : list Output :=
  if proto_fd =? -1 then []
  else match fd_get fds proto_fd with
       | None => [Diagnostic (failed_to_write_proto EBADF)]
       | Some file =>
           match write_error E file with
           | Some errno => [Diagnostic (failed_to_write_proto errno)]
           | None => [ProtoBytes file tombstone]
           end
       end.

(** The table once a [unique_fd] holding [fd] is gone. *)
Definition released (fd : Z) (fds : fd_table) : fd_table :=
  fds_after (unique_fd_reset fd) fds.

(** The entry the lambda of lines 91-99 assigns to [tid] when the reference
    reads [thread]. *)
Definition sibling_entry (E : Env) (thread : ThreadInfo) (tid : pid_t) : ThreadInfo :=
  {| uid := thread.(types.uid);
     tid := tid;
     pid := thread.(types.pid);
     command_line := thread.(types.command_line);
     thread_name := get_thread_name E tid;
     tagged_addr_ctrl := thread.(types.tagged_addr_ctrl);
     pac_enabled_keys := thread.(types.pac_enabled_keys);
     registers := types.registers ThreadInfo_init;
     selinux_label := types.selinux_label ThreadInfo_init;
     signo := types.signo ThreadInfo_init;
     siginfo := types.siginfo ThreadInfo_init |}.

(** Whether the listing of the process could be read and names [k]. *)
Definition listed (E : Env) (k : pid_t) : bool :=
  match proc_task E (getpid E) with
  | inr tids => bool_decide (k ∈ tids)
  | inl _ => false
  end.

(** The same environment with another outcome of reading the listing. *)
Definition with_listing (E : Env) (task : Z + list pid_t) : Env :=
  {| getuid := getuid E;
     getpid := getpid E;
     gettid := gettid E;
     CurrentArch := CurrentArch E;
     proc_comm := proc_comm E;
     proc_cmdline := proc_cmdline E;
     proc_attr_current := proc_attr_current E;
     sys_prctl := sys_prctl E;
     proc_task := fun _ => task;
     Initialize := Initialize E;
     fd_limit := fd_limit E;
     write_error := write_error E |}.

(** The file descriptions the text lines were sent to. *)
Definition text_destinations (out : list Output) : list (option nat) :=
  omap (fun o => match o with TextLine file _ _ => Some file | _ => None end) out.

(** ** The ordered map *)

Section StdMapFacts.
Context {V : Type}.
Implicit Types (m : std_map V) (k : Z) (v : V).

Lemma map_find_assign k v m k' :
  map_find k' (map_assign k v m) = if k' =? k then Some v else map_find k' m.
Proof.
  induction m as [|[k0 v0] m IH]; simpl.
  - reflexivity.
  - destruct (k <? k0) eqn:Hlt; simpl.
    + reflexivity.
    + destruct (k =? k0) eqn:Heq; simpl.
      * apply Z.eqb_eq in Heq; subst k0.
        destruct (k' =? k); reflexivity.
      * rewrite IH.
        destruct (k' =? k0) eqn:H0; [|reflexivity].
        apply Z.eqb_eq in H0; subst k0.
        destruct (k' =? k) eqn:H1; [|reflexivity].
        apply Z.eqb_eq in H1; subst k'. rewrite Z.eqb_refl in Heq. discriminate.
Qed.

Lemma map_find_assign_eq k v m : map_find k (map_assign k v m) = Some v.
Proof. rewrite map_find_assign, Z.eqb_refl. reflexivity. Qed.

Lemma map_find_assign_ne k v m k' :
  k' <> k -> map_find k' (map_assign k v m) = map_find k' m.
Proof.
  intros Hne. rewrite map_find_assign.
  destruct (k' =? k) eqn:Heq; [|reflexivity].
  apply Z.eqb_eq in Heq. contradiction.
Qed.

Lemma map_keys_assign k v m k' :
  In k' (map_keys (map_assign k v m)) -> k' = k \/ In k' (map_keys m).
Proof.
  unfold map_keys.
  induction m as [|[k0 v0] m IH]; simpl.
  - intros [->|[]]. left; reflexivity.
  - destruct (k <? k0); simpl.
    + intros [->|H]; [left; reflexivity | right; exact H].
    + destruct (k =? k0) eqn:Heq; simpl.
      * intros [->|H]; [left; reflexivity | right; right; exact H].
      * intros [->|H]; [right; left; reflexivity |].
        destruct (IH H) as [->|H']; [left; reflexivity | right; right; exact H'].
Qed.

(** Assignment keeps the keys strictly ascending. *)
Lemma map_assign_ok k v m : map_ok m -> map_ok (map_assign k v m).
Proof.
  unfold map_ok, map_keys.
  induction m as [|[k0 v0] m IH]; simpl; intros Hok.
  - repeat constructor.
  - apply StronglySorted_inv in Hok as [Hm Hall].
    destruct (k <? k0) eqn:Hlt; simpl.
    + apply Z.ltb_lt in Hlt.
      constructor; [constructor; assumption|].
      constructor; [exact Hlt|].
      eapply Forall_impl; [exact Hall|]. simpl. intros; lia.
    + apply Z.ltb_ge in Hlt.
      destruct (k =? k0) eqn:Heq; simpl.
      * apply Z.eqb_eq in Heq; subst k0. constructor; assumption.
      * apply Z.eqb_neq in Heq.
        constructor; [apply IH; exact Hm|].
        apply List.Forall_forall. intros k' Hin.
        apply (map_keys_assign k v m k') in Hin as [->|Hin]; [lia|].
        rewrite List.Forall_forall in Hall. apply Hall, Hin.
Qed.

Lemma map_subscript_ok init k m : map_ok m -> map_ok (map_subscript init k m).
Proof.
  intros Hok. unfold map_subscript.
  destruct (map_find k m); [exact Hok | apply map_assign_ok, Hok].
Qed.

Lemma map_find_subscript init k m k' :
  map_find k' (map_subscript init k m)
  = match map_find k' m with
    | Some v => Some v
    | None => if k' =? k then Some init else None
    end.
Proof.
  unfold map_subscript.
  destruct (map_find k m) as [v|] eqn:Hk.
  - destruct (map_find k' m) eqn:Hk'; [reflexivity|].
    destruct (k' =? k) eqn:Heq; [|reflexivity].
    apply Z.eqb_eq in Heq; subst k'. congruence.
  - rewrite map_find_assign.
    destruct (k' =? k) eqn:Heq.
    + apply Z.eqb_eq in Heq; subst k'. rewrite Hk. reflexivity.
    + destruct (map_find k' m); reflexivity.
Qed.

Lemma map_ok_NoDup m : map_ok m -> NoDup (map_keys m).
Proof.
  unfold map_ok. generalize (map_keys m) as ks.
  induction ks as [|k ks IH]; intros Hok.
  - constructor.
  - apply StronglySorted_inv in Hok as [Hks Hall].
    constructor; [|apply IH, Hks].
    intros Hin. apply list_elem_of_In in Hin.
    rewrite List.Forall_forall in Hall. specialize (Hall k Hin). lia.
Qed.

Lemma map_find_In k v m : map_find k m = Some v -> In (k, v) m.
Proof.
  induction m as [|[k0 v0] m IH]; simpl; [discriminate|].
  destruct (k =? k0) eqn:Heq.
  - apply Z.eqb_eq in Heq; subst k0. intros [= ->]. left; reflexivity.
  - intros H. right. apply IH, H.
Qed.

Lemma map_In_find k v m : map_ok m -> In (k, v) m -> map_find k m = Some v.
Proof.
  unfold map_ok, map_keys.
  induction m as [|[k0 v0] m IH]; simpl; intros Hok Hin; [contradiction|].
  apply StronglySorted_inv in Hok as [Hm Hall].
  destruct Hin as [[= -> ->]|Hin].
  - rewrite Z.eqb_refl. reflexivity.
  - destruct (k =? k0) eqn:Heq.
    + apply Z.eqb_eq in Heq; subst k0.
      rewrite List.Forall_forall in Hall.
      specialize (Hall k (in_map fst _ _ Hin)). simpl in Hall. lia.
    + apply IH; assumption.
Qed.
End StdMapFacts.

(** ** Capture and enumeration *)

Lemma filter_none {A} (f : A -> bool) (l : list A) :
  (forall a, In a l -> f a = false) -> List.filter f l = [].
Proof.
  induction l as [|a l IH]; simpl; intros H; [reflexivity|].
  rewrite (H a (or_introl eq_refl)). apply IH. intros b Hb. apply H. right; exact Hb.
Qed.

Lemma filter_single {V} (f : Z * V -> bool) (m : std_map V) (k : Z) (v : V) :
  map_ok m -> map_find k m = Some v -> f (k, v) = true ->
  (forall k' v', In (k', v') m -> k' <> k -> f (k', v') = false) ->
  List.filter f m = [(k, v)].
Proof.
  induction m as [|[k0 v0] m IH]; simpl; intros Hok Hfind Hf Hrest; [discriminate|].
  pose proof (map_ok_NoDup _ Hok) as Hnd. apply NoDup_cons in Hnd as [Hk0 _].
  apply StronglySorted_inv in Hok as [Hm _].
  destruct (k =? k0) eqn:Heq.
  - apply Z.eqb_eq in Heq; subst k0. injection Hfind as ->. rewrite Hf. f_equal.
    apply filter_none. intros [k' v'] Hin. apply Hrest; [right; exact Hin|].
    intros ->. apply Hk0. apply list_elem_of_In. exact (in_map fst _ _ Hin).
  - apply Z.eqb_neq in Heq.
    rewrite (Hrest k0 v0 (or_introl eq_refl)) by congruence.
    apply IH; try assumption. intros k' v' Hin. apply Hrest. right; exact Hin.
Qed.

Section Enumeration.
Variable E : Env.
Variables (siginfo : siginfo_t) (ucontext : ucontext_t).

Local Abbreviation target_tid := (gettid E).
Local Abbreviation crashing := (crashing_thread E siginfo ucontext).
Local Abbreviation walk := (fold_left (sibling_thread E (getpid E) target_tid)).

Lemma sibling_thread_inv threads tid :
  threads_inv target_tid crashing threads ->
  threads_inv target_tid crashing (sibling_thread E (getpid E) target_tid threads tid).
Proof.
  intros (Hok & Hcrash & Hothers). unfold sibling_thread.
  destruct (target_tid =? tid) eqn:Heq; [repeat split; assumption|].
  apply Z.eqb_neq in Heq.
  split; [apply map_assign_ok, Hok|]. split.
  - rewrite map_find_assign_ne by congruence. exact Hcrash.
  - intros k thread. rewrite map_find_assign.
    destruct (k =? tid); [intros [= <-] _; reflexivity | apply Hothers].
Qed.

Lemma fold_sibling_thread_inv tids threads :
  threads_inv target_tid crashing threads ->
  threads_inv target_tid crashing
    (fold_left (sibling_thread E (getpid E) target_tid) tids threads).
Proof.
  revert threads. induction tids as [|tid tids IH]; simpl; intros threads Hinv.
  - exact Hinv.
  - apply IH, sibling_thread_inv, Hinv.
Qed.

Lemma initial_threads_inv :
  threads_inv target_tid crashing
    (map_subscript ThreadInfo_init (getpid E) (map_assign target_tid crashing [])).
Proof.
  split; [apply map_subscript_ok, map_assign_ok; constructor|]. split.
  - rewrite map_find_subscript, map_find_assign_eq. reflexivity.
  - intros k thread. rewrite map_find_subscript, map_find_assign. simpl.
    destruct (k =? target_tid) eqn:Heq.
    + apply Z.eqb_eq in Heq. intros _ Hne. contradiction.
    + destruct (k =? getpid E); [intros [= <-] _; reflexivity | discriminate].
Qed.

Lemma collect_threads_inv :
  threads_inv target_tid crashing (collect_threads E siginfo ucontext).2.
Proof.
  unfold collect_threads, iterate_tids.
  destruct (proc_task E (getpid E)); simpl.
  - apply initial_threads_inv.
  - apply fold_sibling_thread_inv, initial_threads_inv.
Qed.

(** The entry behind the reference keeps the members the lambda reads. *)
Lemma sibling_thread_reference base threads tid :
  inherits_from base (map_ref ThreadInfo_init (getpid E) threads) ->
  inherits_from base
    (map_ref ThreadInfo_init (getpid E)
       (sibling_thread E (getpid E) target_tid threads tid)).
Proof.
  intros Hbase. unfold sibling_thread.
  destruct (target_tid =? tid); [exact Hbase|].
  unfold map_ref at 1. rewrite map_find_assign.
  destruct (getpid E =? tid); [exact Hbase|].
  exact Hbase.
Qed.

Lemma sibling_thread_synthesized base threads tid :
  inherits_from base (map_ref ThreadInfo_init (getpid E) threads) ->
  tid <> target_tid ->
  exists thread,
    map_find tid (sibling_thread E (getpid E) target_tid threads tid) = Some thread
    /\ synthesized E base tid thread.
Proof.
  intros Hbase Hne. unfold sibling_thread.
  destruct (target_tid =? tid) eqn:Heq; [apply Z.eqb_eq in Heq; congruence|].
  eexists. split; [apply map_find_assign_eq|].
  repeat split; simpl; apply Hbase.
Qed.

Lemma sibling_thread_keeps base threads tid k thread :
  inherits_from base (map_ref ThreadInfo_init (getpid E) threads) ->
  map_find k threads = Some thread -> synthesized E base k thread ->
  exists thread',
    map_find k (sibling_thread E (getpid E) target_tid threads tid) = Some thread'
    /\ synthesized E base k thread'.
Proof.
  intros Hbase Hfind Hsyn. unfold sibling_thread.
  destruct (target_tid =? tid) eqn:Heq; [eauto|].
  rewrite map_find_assign. destruct (k =? tid) eqn:Hk; [|eauto].
  apply Z.eqb_eq in Hk; subst k. eexists. split; [reflexivity|].
  repeat split; simpl; apply Hbase.
Qed.

Lemma walk_keeps base tids threads k thread :
  inherits_from base (map_ref ThreadInfo_init (getpid E) threads) ->
  map_find k threads = Some thread -> synthesized E base k thread ->
  exists thread',
    map_find k (walk tids threads) = Some thread' /\ synthesized E base k thread'.
Proof.
  revert threads thread.
  induction tids as [|tid tids IH]; simpl; intros threads thread Hbase Hfind Hsyn.
  - eauto.
  - destruct (sibling_thread_keeps base threads tid k thread Hbase Hfind Hsyn)
      as (thread' & Hfind' & Hsyn').
    eapply IH; [apply sibling_thread_reference, Hbase | exact Hfind' | exact Hsyn'].
Qed.

(** Every listed tid other than the crashing one ends up with an entry
    synthesized from the referenced entry. *)
Lemma walk_synthesized base tids threads tid :
  inherits_from base (map_ref ThreadInfo_init (getpid E) threads) ->
  In tid tids -> tid <> target_tid ->
  exists thread,
    map_find tid (walk tids threads) = Some thread /\ synthesized E base tid thread.
Proof.
  revert threads.
  induction tids as [|tid0 tids IH]; simpl; intros threads Hbase Hin Hne; [contradiction|].
  destruct Hin as [->|Hin].
  - destruct (sibling_thread_synthesized base threads tid Hbase Hne)
      as (thread & Hfind & Hsyn).
    eapply walk_keeps; [apply sibling_thread_reference, Hbase | exact Hfind | exact Hsyn].
  - apply IH; [apply sibling_thread_reference, Hbase | exact Hin | exact Hne].
Qed.

Lemma initial_reference :
  map_ref ThreadInfo_init (getpid E)
    (map_subscript ThreadInfo_init (getpid E) (map_assign target_tid crashing []))
  = referenced_thread E siginfo ucontext.
Proof.
  unfold map_ref, referenced_thread.
  rewrite map_find_subscript, map_find_assign. simpl.
  destruct (getpid E =? target_tid); [reflexivity|].
  rewrite Z.eqb_refl. reflexivity.
Qed.

(** What the code does for the siblings: they copy from the entry keyed by
    the pid, which is the crashing thread's entry when the crash is on the
    main thread and a value-initialized entry otherwise. *)
Lemma siblings_copy_referenced_thread tids tid :
  proc_task E (getpid E) = inr tids -> In tid tids -> tid <> target_tid ->
  exists thread,
    map_find tid (collect_threads E siginfo ucontext).2 = Some thread
    /\ synthesized E (referenced_thread E siginfo ucontext) tid thread.
Proof.
  intros Htask Hin Hne. unfold collect_threads, iterate_tids. rewrite Htask.
  cbv zeta. unfold snd.
  apply walk_synthesized; [|exact Hin|exact Hne].
  rewrite initial_reference. repeat split.
Qed.
End Enumeration.

(** ** [engrave_tombstone] *)

Lemma text_lines_rendered file lines :
  text_lines (rendered_output file <$> lines) = logged_line <$> lines.
Proof.
  induction lines as [|[line should_log] lines IH]; [reflexivity|].
  change (logged_line (line, should_log) :: text_lines (rendered_output file <$> lines)
          = logged_line (line, should_log) :: (logged_line <$> lines)).
  rewrite IH. reflexivity.
Qed.

Lemma proto_written_rendered file lines :
  proto_written (rendered_output file <$> lines) = [].
Proof. induction lines as [|entry lines IH]; simpl; [reflexivity | exact IH]. Qed.

Lemma diagnostics_rendered file lines :
  diagnostics (rendered_output file <$> lines) = [].
Proof. induction lines as [|entry lines IH]; simpl; [reflexivity | exact IH]. Qed.

(** The rendering loop: every line reaches [_LOG], the table is untouched. *)
Lemma for_each_line_LOG lines log fds :
  exists log',
    for_each_line
      (fun log line (should_log : bool) =>
         _LOG log (if should_log then HEADER else LOGS) (line +:+ newline))
      lines log fds
    = (log', fds, rendered_output (fd_get fds (tfd log)) <$> lines)
    /\ tfd log' = tfd log.
Proof.
  revert log. induction lines as [|[line should_log] lines IH]; intros log; simpl.
  - exists log. split; reflexivity.
  - unfold mbind, M_bind. simpl.
    match goal with |- context [for_each_line _ lines ?l fds] =>
      destruct (IH l) as (log' & Hrun & Htfd) end.
    rewrite Hrun. exists log'. split; [reflexivity | exact Htfd].
Qed.

Lemma outputs_bind {A B} (m : M A) (k : A -> M B) fds :
  outputs (m ≫= k) fds = outputs m fds ++ outputs (k (result m fds)) (fds_after m fds).
Proof.
  unfold outputs, result, fds_after, mbind, M_bind.
  destruct (m fds) as [[a fds1] out1]. simpl.
  destruct (k a fds1) as [[b fds2] out2]. reflexivity.
Qed.

Lemma fds_after_bind {A B} (m : M A) (k : A -> M B) fds :
  fds_after (m ≫= k) fds = fds_after (k (result m fds)) (fds_after m fds).
Proof.
  unfold outputs, result, fds_after, mbind, M_bind.
  destruct (m fds) as [[a fds1] out1]. simpl.
  destruct (k a fds1) as [[b fds2] out2]. reflexivity.
Qed.

Lemma unique_fd_reset_outputs fd fds : outputs (unique_fd_reset fd) fds = [].
Proof. unfold unique_fd_reset. destruct (fd =? -1); reflexivity. Qed.

Lemma engrave_tombstone_run E output_fd proto_fd unwinder threads target_thread
    process_info open_files amfd_data guest_arch guest_unwinder fds :
  let run := engrave_tombstone E output_fd proto_fd unwinder threads target_thread
               process_info open_files amfd_data guest_arch guest_unwinder in
  let tombstone := engrave_tombstone_proto unwinder threads target_thread
                     process_info open_files guest_arch guest_unwinder in
  outputs run fds
  = serialization_output E fds proto_fd tombstone
    ++ (rendered_output (fd_get fds output_fd) <$> render tombstone)
  /\ fds_after run fds = released output_fd (released proto_fd fds).
Proof.
  intros run tombstone. subst run.
  unfold engrave_tombstone, tombstone_proto_to_text.
  fold tombstone.
  rewrite !outputs_bind, !fds_after_bind.
  set (serialize := if negb (proto_fd =? -1) then _ else _).
  set (loop := for_each_line _ _ _).
  assert (Hserialize : outputs serialize fds = serialization_output E fds proto_fd tombstone
                       /\ fds_after serialize fds = fds).
  { subst serialize. unfold serialization_output.
    destruct (proto_fd =? -1); simpl; [split; reflexivity|].
    rewrite outputs_bind, fds_after_bind.
    unfold outputs, fds_after, result, SerializeToFileDescriptor.
    destruct (fd_get fds proto_fd) as [file|]; simpl; [|split; reflexivity].
    destruct (write_error E file); simpl; split; reflexivity. }
  destruct Hserialize as [-> ->].
  assert (Hloop : outputs loop fds = rendered_output (fd_get fds output_fd) <$> render tombstone
                  /\ fds_after loop fds = fds).
  { subst loop. unfold outputs, fds_after.
    match goal with |- context [for_each_line ?cb ?lines ?log fds] =>
      destruct (for_each_line_LOG lines log fds) as (log' & -> & _) end.
    split; reflexivity. }
  destruct Hloop as [-> ->].
  rewrite !unique_fd_reset_outputs. unfold released.
  split; [|reflexivity].
  change (outputs (mret _) _) with (@nil Output). rewrite !app_nil_r. reflexivity.
Qed.

(** ** The descriptor table *)

Lemma first_free_lookup (fds : fd_table) :
  fds !! first_free fds = Some None \/ first_free fds = length fds.
Proof.
  induction fds as [|[file|] fds IH]; simpl.
  - right; reflexivity.
  - destruct IH as [IH|IH]; [left; exact IH | right; f_equal; exact IH].
  - left; reflexivity.
Qed.

Lemma first_free_unused (fds : fd_table) :
  fd_get fds (Z.of_nat (first_free fds)) = None.
Proof.
  unfold fd_get. destruct (Z.of_nat (first_free fds) <? 0); [reflexivity|].
  rewrite Nat2Z.id.
  destruct (first_free_lookup fds) as [->| ->]; [reflexivity|].
  rewrite lookup_ge_None_2; [reflexivity | lia].
Qed.

Lemma fd_get_install (fds : fd_table) (file : nat) (fd : Z) :
  fd_get (fd_install (first_free fds) file fds) fd
  = if fd =? Z.of_nat (first_free fds) then Some file else fd_get fds fd.
Proof.
  unfold fd_get, fd_install.
  destruct (fd <? 0) eqn:Hneg.
  - apply Z.ltb_lt in Hneg.
    destruct (fd =? Z.of_nat (first_free fds)) eqn:Heq; [|reflexivity].
    apply Z.eqb_eq in Heq. lia.
  - apply Z.ltb_ge in Hneg.
    destruct (fd =? Z.of_nat (first_free fds)) eqn:Heq.
    + apply Z.eqb_eq in Heq. rewrite Heq, Nat2Z.id.
      destruct (first_free fds <? length fds)%nat eqn:Hlen.
      * apply Nat.ltb_lt in Hlen. rewrite list_lookup_insert_eq by exact Hlen. reflexivity.
      * destruct (first_free_lookup fds) as [Hslot|Hend].
        -- apply lookup_lt_Some in Hslot. apply Nat.ltb_ge in Hlen. lia.
        -- rewrite Hend, lookup_app_r by lia. rewrite Nat.sub_diag. reflexivity.
    + apply Z.eqb_neq in Heq.
      assert (Hne : first_free fds <> Z.to_nat fd) by lia.
      destruct (first_free fds <? length fds)%nat eqn:Hlen.
      * rewrite list_lookup_insert_ne by exact Hne. reflexivity.
      * apply Nat.ltb_ge in Hlen.
        destruct (first_free_lookup fds) as [Hslot|Hend];
          [apply lookup_lt_Some in Hslot; lia|].
        destruct (decide (Z.to_nat fd < length fds)%nat) as [Hin|Hout].
        -- rewrite lookup_app_l by exact Hin. reflexivity.
        -- rewrite !lookup_ge_None_2; [reflexivity | lia |].
           rewrite length_app. simpl. lia.
Qed.

Lemma fd_get_released (fds : fd_table) (fd x : Z) :
  fd_get (released fd fds) x
  = if (0 <=? fd) && (x =? fd) then None else fd_get fds x.
Proof.
  unfold released, fds_after, unique_fd_reset, close.
  destruct (fd =? -1) eqn:Hm.
  - apply Z.eqb_eq in Hm; subst fd. reflexivity.
  - simpl. destruct (fd <? 0) eqn:Hneg.
    + apply Z.ltb_lt in Hneg. destruct (0 <=? fd) eqn:Hpos; [|reflexivity].
      apply Z.leb_le in Hpos. lia.
    + apply Z.ltb_ge in Hneg. destruct (0 <=? fd) eqn:Hpos; [|apply Z.leb_gt in Hpos; lia].
      simpl. unfold fd_get. destruct (x <? 0) eqn:Hx.
      * destruct (x =? fd); reflexivity.
      * apply Z.ltb_ge in Hx. destruct (x =? fd) eqn:Heq.
        -- apply Z.eqb_eq in Heq; subst x.
           destruct (decide (Z.to_nat fd < length fds)%nat) as [Hin|Hout].
           ++ rewrite list_lookup_insert_eq by exact Hin. reflexivity.
           ++ rewrite lookup_ge_None_2; [reflexivity|]. rewrite length_insert. lia.
        -- apply Z.eqb_neq in Heq.
           rewrite list_lookup_insert_ne by lia. reflexivity.
Qed.

(** [dup]: either it fails and changes nothing, or it returns a descriptor
    that was free and now names the file of [fd]; nothing else moves. *)
Lemma dup_spec E fd fds :
  let fd' := result (dup E fd) fds in
  let fds' := fds_after (dup E fd) fds in
  outputs (dup E fd) fds = []
  /\ ((fd' = -1 /\ fds' = fds)
      \/ (0 <= fd' /\ fd_get fds fd' = None /\ fd_get fds fd <> None
          /\ forall x, fd_get fds' x = if x =? fd' then fd_get fds fd else fd_get fds x)).
Proof.
  unfold result, fds_after, outputs, dup.
  destruct (fd_get fds fd) as [file|] eqn:Hfd; simpl; [|split; [reflexivity | left; split; reflexivity]].
  destruct (first_free fds <? fd_limit E)%nat; simpl;
    [|split; [reflexivity | left; split; reflexivity]].
  split; [reflexivity|]. right. split; [lia|]. split; [apply first_free_unused|].
  split; [discriminate|]. intros x. apply fd_get_install.
Qed.

(** ** [engrave_tombstone_ucontext] *)

Lemma mret_outputs {A} (a : A) fds : outputs (mret a) fds = [].
Proof. reflexivity. Qed.

Lemma mret_fds_after {A} (a : A) fds : fds_after (mret a) fds = fds.
Proof. reflexivity. Qed.

Lemma dup_outputs E fd fds : outputs (dup E fd) fds = [].
Proof. apply dup_spec. Qed.

(** The call once the unwinder is initialized: the warning, if any, then
    [engrave_tombstone] on the two duplicates. *)
Lemma engrave_tombstone_ucontext_run E tombstone_fd proto_fd abort_msg_address
    siginfo ucontext fds unwinder :
  Initialize E = inr unwinder ->
  let run := engrave_tombstone_ucontext E tombstone_fd proto_fd abort_msg_address
               siginfo ucontext in
  let collected := collect_threads E siginfo ucontext in
  let output_fd' := result (dup E tombstone_fd) fds in
  let fds1 := fds_after (dup E tombstone_fd) fds in
  let proto_fd' := result (dup E proto_fd) fds1 in
  let fds2 := fds_after (dup E proto_fd) fds1 in
  let inner := engrave_tombstone E output_fd' proto_fd' unwinder collected.2
                 (gettid E) {| abort_msg_address := abort_msg_address |}
                 None None None None in
  outputs run fds
  = (if collected.1 then []
     else [Diagnostic (failed_to_open_task (getpid E) (task_errno E (getpid E)))])
    ++ outputs inner fds2
  /\ fds_after run fds = fds_after inner fds2.
Proof.
  intros Hinit run collected output_fd' fds1 proto_fd' fds2 inner.
  subst run inner. unfold engrave_tombstone_ucontext. rewrite Hinit.
  fold collected. destruct collected as [listed threads]. cbv zeta.
  rewrite !outputs_bind, !fds_after_bind, !dup_outputs, !mret_outputs.
  assert (Hwarn : forall m : M unit,
            m = (if listed then mret ()
                 else async_safe_format_log
                        (failed_to_open_task (getpid E) (task_errno E (getpid E)))) ->
            fds_after m fds = fds).
  { intros m ->. destruct listed; reflexivity. }
  rewrite (Hwarn _ eq_refl). fold output_fd' fds1. fold proto_fd' fds2.
  rewrite mret_fds_after, app_nil_r. simpl.
  split; [|reflexivity]. destruct listed; reflexivity.
Qed.

(** The call when the unwinder cannot be initialized. *)
Lemma engrave_tombstone_ucontext_abort E tombstone_fd proto_fd abort_msg_address
    siginfo ucontext fds code :
  Initialize E = inl code ->
  engrave_tombstone_ucontext E tombstone_fd proto_fd abort_msg_address siginfo
    ucontext fds
  = ((), fds,
     (if (collect_threads E siginfo ucontext).1 then []
      else [Diagnostic (failed_to_open_task (getpid E) (task_errno E (getpid E)))])
     ++ [Diagnostic (failed_to_init_unwinder code)]).
Proof.
  intros Hinit. unfold engrave_tombstone_ucontext. rewrite Hinit.
  destruct (collect_threads E siginfo ucontext) as [[|] threads]; reflexivity.
Qed.

(** C3: when the unwinder cannot be initialized the call returns before any
    output: nothing is serialized, no text line is rendered, the descriptor
    table is untouched, and the last diagnostic carries the unwinder's error
    code. *)
Theorem unwinder_init_failure_aborts E tombstone_fd proto_fd abort_msg_address
    siginfo ucontext fds code :
  Initialize E = inl code ->
  let run := engrave_tombstone_ucontext E tombstone_fd proto_fd abort_msg_address
               siginfo ucontext in
  proto_written (outputs run fds) = []
  /\ text_lines (outputs run fds) = []
  /\ last (diagnostics (outputs run fds)) = Some (failed_to_init_unwinder code)
  /\ fds_after run fds = fds.
Proof.
  intros Hinit run. subst run. unfold outputs, fds_after.
  rewrite (engrave_tombstone_ucontext_abort _ _ _ _ _ _ _ _ Hinit).
  destruct (collect_threads E siginfo ucontext).1; repeat split; reflexivity.
Qed.

Lemma unwinder_init_failure_aborts_witness :
  let run := engrave_tombstone_ucontext unwinder_broken 3 4 0 segv [] in
  proto_written (outputs run sample_fds) = []
  /\ text_lines (outputs run sample_fds) = []
  /\ last (diagnostics (outputs run sample_fds)) = Some (failed_to_init_unwinder 7)
  /\ fds_after run sample_fds = sample_fds.
Proof.
  apply (unwinder_init_failure_aborts unwinder_broken 3 4 0 segv [] sample_fds 7).
  reflexivity.
Defined.

(** C9: the call hands duplicates to [engrave_tombstone], and what is closed
    at its end are the duplicates: after the call every descriptor, the
    caller's [tombstone_fd] and [proto_fd] among them, names the file it named
    before. *)
Theorem caller_descriptors_left_open E tombstone_fd proto_fd abort_msg_address
    siginfo ucontext fds :
  let fds' := fds_after
                (engrave_tombstone_ucontext E tombstone_fd proto_fd abort_msg_address
                   siginfo ucontext) fds in
  fd_get fds' tombstone_fd = fd_get fds tombstone_fd
  /\ fd_get fds' proto_fd = fd_get fds proto_fd
  /\ forall fd, fd_get fds' fd = fd_get fds fd.
Proof.
  intros fds'.
  assert (Hall : forall fd, fd_get fds' fd = fd_get fds fd); [|repeat split; apply Hall].
  intros x. subst fds'.
  destruct (Initialize E) as [code|unwinder] eqn:Hinit.
  - unfold fds_after.
    rewrite (engrave_tombstone_ucontext_abort _ _ _ _ _ _ _ _ Hinit). reflexivity.
  - destruct (engrave_tombstone_ucontext_run E tombstone_fd proto_fd abort_msg_address
                siginfo ucontext fds unwinder Hinit) as [_ ->].
    match goal with |- context [fds_after (engrave_tombstone ?E ?o ?p ?u ?t ?tt ?pi ?f ?a ?g ?gu) ?s] =>
      destruct (engrave_tombstone_run E o p u t tt pi f a g gu s) as [_ ->] end.
    rewrite !fd_get_released.
    destruct (dup_spec E tombstone_fd fds) as [_ Hdup1].
    set (output_fd' := result (dup E tombstone_fd) fds) in *.
    set (fds1 := fds_after (dup E tombstone_fd) fds) in *.
    destruct (dup_spec E proto_fd fds1) as [_ Hdup2].
    set (proto_fd' := result (dup E proto_fd) fds1) in *.
    set (fds2 := fds_after (dup E proto_fd) fds1) in *.
    destruct Hdup1 as [[Ho ->]|(Ho & Hfree1 & Hopen1 & Hget1)];
      destruct Hdup2 as [[Hp ->]|(Hp & Hfree2 & Hopen2 & Hget2)].
    + rewrite Ho, Hp. reflexivity.
    + rewrite Ho. simpl. rewrite Hget2.
      replace (0 <=? proto_fd') with true by (symmetry; apply Z.leb_le; exact Hp).
      simpl. destruct (x =? proto_fd') eqn:Heq; [|reflexivity].
      apply Z.eqb_eq in Heq; subst x. symmetry; exact Hfree2.
    + rewrite Hp. simpl. rewrite Hget1.
      replace (0 <=? output_fd') with true by (symmetry; apply Z.leb_le; exact Ho).
      simpl. destruct (x =? output_fd') eqn:Heq; [|reflexivity].
      apply Z.eqb_eq in Heq; subst x. symmetry; exact Hfree1.
    + rewrite Hget2.
      replace (0 <=? output_fd') with true by (symmetry; apply Z.leb_le; exact Ho).
      replace (0 <=? proto_fd') with true by (symmetry; apply Z.leb_le; exact Hp).
      simpl. destruct (x =? output_fd') eqn:Heq1.
      * apply Z.eqb_eq in Heq1; subst x. symmetry; exact Hfree1.
      * destruct (x =? proto_fd') eqn:Heq2.
        -- apply Z.eqb_eq in Heq2; subst x.
           rewrite Hget1, Heq1 in Hfree2. symmetry; exact Hfree2.
        -- rewrite Hget1, Heq1. reflexivity.
Qed.

Lemma dup_fresh E fd fds :
  result (dup E fd) fds = -1
  \/ (result (dup E fd) fds <> fd
      /\ fd_get fds (result (dup E fd) fds) = None
      /\ fd_get (fds_after (dup E fd) fds) (result (dup E fd) fds) = fd_get fds fd).
Proof.
  destruct (dup_spec E fd fds) as [_ [[Hfail _]|(_ & Hfree & Hopen & Hget)]];
    [left; exact Hfail | right].
  split; [intros Heq; rewrite Heq in Hfree; contradiction|].
  split; [exact Hfree|]. rewrite Hget, Z.eqb_refl. reflexivity.
Qed.

(** ** Serialization and rendering *)

Lemma serialization_output_cases E fds proto_fd tombstone :
  let out := serialization_output E fds proto_fd tombstone in
  (proto_fd = -1 /\ out = [])
  \/ (proto_fd <> -1 /\ exists errno, out = [Diagnostic (failed_to_write_proto errno)])
  \/ (proto_fd <> -1 /\ exists file,
        fd_get fds proto_fd = Some file /\ write_error E file = None
        /\ out = [ProtoBytes file tombstone]).
Proof.
  unfold serialization_output.
  destruct (proto_fd =? -1) eqn:Hm.
  - left. apply Z.eqb_eq in Hm. split; [exact Hm | reflexivity].
  - apply Z.eqb_neq in Hm. right.
    destruct (fd_get fds proto_fd) as [file|]; [|left; split; [exact Hm | eexists; reflexivity]].
    destruct (write_error E file) eqn:Hw; [left; split; [exact Hm | eexists; reflexivity]|].
    right. split; [exact Hm|]. exists file. repeat split. exact Hw.
Qed.

(** What [engrave_tombstone] sends out, by kind. *)
Lemma engrave_tombstone_projections E output_fd proto_fd unwinder threads
    target_thread process_info open_files amfd_data guest_arch guest_unwinder fds :
  let out := outputs (engrave_tombstone E output_fd proto_fd unwinder threads
                        target_thread process_info open_files amfd_data guest_arch
                        guest_unwinder) fds in
  let tombstone := engrave_tombstone_proto unwinder threads target_thread
                     process_info open_files guest_arch guest_unwinder in
  proto_written out = proto_written (serialization_output E fds proto_fd tombstone)
  /\ diagnostics out = diagnostics (serialization_output E fds proto_fd tombstone)
  /\ text_lines out
     = text_lines (serialization_output E fds proto_fd tombstone)
       ++ (logged_line <$> render tombstone).
Proof.
  intros out tombstone. subst out.
  destruct (engrave_tombstone_run E output_fd proto_fd unwinder threads target_thread
              process_info open_files amfd_data guest_arch guest_unwinder fds)
    as [-> _].
  fold tombstone. unfold proto_written, diagnostics, text_lines.
  rewrite !omap_app.
  fold (proto_written (rendered_output (fd_get fds output_fd) <$> render tombstone)).
  fold (diagnostics (rendered_output (fd_get fds output_fd) <$> render tombstone)).
  fold (text_lines (rendered_output (fd_get fds output_fd) <$> render tombstone)).
  rewrite proto_written_rendered, diagnostics_rendered, text_lines_rendered, !app_nil_r.
  repeat split; reflexivity.
Qed.

Lemma engrave_tombstone_text_lines E output_fd proto_fd unwinder threads
    target_thread process_info open_files amfd_data guest_arch guest_unwinder fds :
  text_lines (outputs (engrave_tombstone E output_fd proto_fd unwinder threads
                         target_thread process_info open_files amfd_data guest_arch
                         guest_unwinder) fds)
  = logged_line <$> render (engrave_tombstone_proto unwinder threads target_thread
                              process_info open_files guest_arch guest_unwinder).
Proof.
  destruct (engrave_tombstone_projections E output_fd proto_fd unwinder threads
              target_thread process_info open_files amfd_data guest_arch
              guest_unwinder fds) as (_ & _ & ->).
  match goal with |- context [serialization_output ?E ?f ?p ?t] =>
    destruct (serialization_output_cases E f p t)
      as [[_ ->]|[[_ [errno ->]]|[_ (file & _ & _ & ->)]]] end;
    reflexivity.
Qed.

(** C4: in [engrave_tombstone] serialization is skipped entirely (nothing is
    written to a sink and no failure is logged) exactly when [proto_fd] is
    [-1]; a failed write leaves one diagnostic and nothing in the sink; and in
    every case all the rendered lines are emitted. *)
Theorem serialization_optional_and_soft E output_fd proto_fd unwinder threads
    target_thread process_info open_files amfd_data guest_arch guest_unwinder fds :
  let out := outputs (engrave_tombstone E output_fd proto_fd unwinder threads
                        target_thread process_info open_files amfd_data guest_arch
                        guest_unwinder) fds in
  let tombstone := engrave_tombstone_proto unwinder threads target_thread
                     process_info open_files guest_arch guest_unwinder in
  (proto_fd = -1 <-> proto_written out = [] /\ diagnostics out = [])
  /\ (diagnostics out = []
      \/ exists errno, diagnostics out = [failed_to_write_proto errno]
                       /\ proto_written out = [])
  /\ text_lines out = logged_line <$> render tombstone.
Proof.
  intros out tombstone. subst out.
  destruct (engrave_tombstone_projections E output_fd proto_fd unwinder threads
              target_thread process_info open_files amfd_data guest_arch
              guest_unwinder fds) as (-> & -> & _).
  rewrite engrave_tombstone_text_lines. fold tombstone.
  destruct (serialization_output_cases E fds proto_fd tombstone)
    as [[Hm ->]|[[Hm [errno ->]]|[Hm (file & _ & _ & ->)]]]; simpl.
  - repeat split; try reflexivity; auto.
  - split; [split; [contradiction | intros [_ [=]]]|].
    split; [right; exists errno; split; reflexivity | reflexivity].
  - split; [split; [contradiction | intros [[=] _]]|].
    split; [left; reflexivity | reflexivity].
Qed.

(** C7: the text lines [engrave_tombstone] emits are a function of the thread
    mapping, the crashing tid, the process info and the collaborators alone:
    two invocations on them emit the same lines, whatever the descriptors,
    the table and the fate of the proto write, and each emits the complete
    rendering. *)
Theorem rendering_is_deterministic E1 E2 output_fd1 output_fd2 proto_fd1 proto_fd2
    amfd_data1 amfd_data2 fds1 fds2 unwinder threads target_thread process_info
    open_files guest_arch guest_unwinder :
  let run1 := engrave_tombstone E1 output_fd1 proto_fd1 unwinder threads target_thread
                process_info open_files amfd_data1 guest_arch guest_unwinder in
  let run2 := engrave_tombstone E2 output_fd2 proto_fd2 unwinder threads target_thread
                process_info open_files amfd_data2 guest_arch guest_unwinder in
  text_lines (outputs run1 fds1) = text_lines (outputs run2 fds2)
  /\ text_lines (outputs run1 fds1)
     = logged_line <$> render (engrave_tombstone_proto unwinder threads target_thread
                                 process_info open_files guest_arch guest_unwinder).
Proof.
  intros run1 run2. subst run1 run2.
  rewrite !engrave_tombstone_text_lines. split; reflexivity.
Qed.

(** C10: [engrave_tombstone] builds one [Tombstone] and both outputs come from
    it: a sink never receives anything but that message and receives it at
    most once, the text lines are its rendering, and when the proto sink is
    open and the write goes through the sink holds exactly that message. *)
Theorem both_outputs_from_one_proto E output_fd proto_fd unwinder threads
    target_thread process_info open_files amfd_data guest_arch guest_unwinder fds :
  let out := outputs (engrave_tombstone E output_fd proto_fd unwinder threads
                        target_thread process_info open_files amfd_data guest_arch
                        guest_unwinder) fds in
  let tombstone := engrave_tombstone_proto unwinder threads target_thread
                     process_info open_files guest_arch guest_unwinder in
  (proto_written out = [] \/ exists file, proto_written out = [(file, tombstone)])
  /\ text_lines out = logged_line <$> render tombstone
  /\ (forall file, fd_get fds proto_fd = Some file -> write_error E file = None ->
        proto_written out = [(file, tombstone)]).
Proof.
  intros out tombstone. subst out.
  destruct (engrave_tombstone_projections E output_fd proto_fd unwinder threads
              target_thread process_info open_files amfd_data guest_arch
              guest_unwinder fds) as (-> & _ & _).
  rewrite engrave_tombstone_text_lines. fold tombstone.
  split; [|split; [reflexivity|]].
  - destruct (serialization_output_cases E fds proto_fd tombstone)
      as [[_ ->]|[[_ [errno ->]]|[_ (file & _ & _ & ->)]]]; simpl; eauto.
  - intros file Hopen Hwrite. unfold serialization_output.
    destruct (proto_fd =? -1) eqn:Hm.
    + apply Z.eqb_eq in Hm; subst proto_fd. discriminate Hopen.
    + rewrite Hopen, Hwrite. reflexivity.
Qed.

Lemma both_outputs_from_one_proto_witness :
  let out := outputs (engrave_tombstone main_crash 3 4 sample_unwinder sample_threads
                        100 {| abort_msg_address := 0 |} None None None None)
               sample_fds in
  let tombstone := engrave_tombstone_proto sample_unwinder sample_threads 100
                     {| abort_msg_address := 0 |} None None None in
  proto_written out = [(8%nat, tombstone)]
  /\ text_lines out = logged_line <$> render tombstone.
Proof.
  destruct (both_outputs_from_one_proto main_crash 3 4 sample_unwinder sample_threads
              100 {| abort_msg_address := 0 |} None None None None sample_fds)
    as (_ & Htext & Hproto).
  split; [apply Hproto; reflexivity | exact Htext].
Defined.

(** C5: in the mapping made by capture and enumeration no tid has two
    entries, and exactly one entry carries a signal-detail record: the one
    of the crashing tid, which carries the record the handler was given. *)
Theorem threads_unique_one_signal_record E siginfo ucontext :
  let threads := (collect_threads E siginfo ucontext).2 in
  let crashing := crashing_thread E siginfo ucontext in
  NoDup (map_keys threads)
  /\ map_find (gettid E) threads = Some crashing
  /\ types.siginfo crashing = Some siginfo
  /\ List.filter has_siginfo threads = [(gettid E, crashing)].
Proof.
  intros threads crashing.
  destruct (collect_threads_inv E siginfo ucontext) as (Hok & Hcrash & Hothers).
  fold threads crashing in Hok, Hcrash, Hothers.
  split; [apply map_ok_NoDup, Hok|]. split; [exact Hcrash|]. split; [reflexivity|].
  apply filter_single; [exact Hok | exact Hcrash | reflexivity |].
  intros k thread Hin Hne. unfold has_siginfo. simpl.
  rewrite (Hothers k thread (map_In_find k thread threads Hok Hin) Hne). reflexivity.
Qed.

(** C6: the report lists the threads in the order of the mapping, which is
    strictly ascending in the tid. *)
Theorem threads_emitted_in_ascending_tid_order unwinder threads target_tid
    process_info open_files guest_arch guest_unwinder :
  map_ok threads ->
  let tombstone := engrave_tombstone_proto unwinder threads target_tid process_info
                     open_files guest_arch guest_unwinder in
  thread_id <$> tomb_threads tombstone = map_keys threads
  /\ StronglySorted Z.lt (thread_id <$> tomb_threads tombstone).
Proof.
  intros Hok tombstone.
  assert (Hkeys : thread_id <$> tomb_threads tombstone = map_keys threads).
  { subst tombstone. simpl. unfold map_keys.
    induction threads as [|[k v] m IH]; simpl; [reflexivity|].
    f_equal. apply IH. apply StronglySorted_inv in Hok. apply Hok. }
  split; [exact Hkeys | rewrite Hkeys; exact Hok].
Qed.

Lemma threads_emitted_in_ascending_tid_order_witness :
  let tombstone := engrave_tombstone_proto sample_unwinder sample_threads 100
                     {| abort_msg_address := 0 |} None None None in
  thread_id <$> tomb_threads tombstone = [100; 101]
  /\ StronglySorted Z.lt (thread_id <$> tomb_threads tombstone).
Proof.
  apply (threads_emitted_in_ascending_tid_order sample_unwinder sample_threads 100
           {| abort_msg_address := 0 |} None None None).
  unfold map_ok. vm_compute. repeat constructor.
Defined.

(** The mapping [engrave_tombstone_ucontext] hands over is ordered, so its
    report lists the threads by ascending tid. *)
Lemma reported_threads_ascending E siginfo ucontext unwinder process_info :
  StronglySorted Z.lt
    (thread_id <$> tomb_threads
       (engrave_tombstone_proto unwinder (collect_threads E siginfo ucontext).2
          (gettid E) process_info None None None)).
Proof.
  simpl. replace (thread_id <$> _) with (map_keys (collect_threads E siginfo ucontext).2).
  - apply collect_threads_inv.
  - unfold map_keys. generalize (collect_threads E siginfo ucontext).2 as m.
    induction m as [|[k v] m IH]; simpl; [reflexivity | f_equal; exact IH].
Qed.

(** ** Capture of the crashing thread *)

(** C8: capture is total; a thread name, command line or security label
    that cannot be read is left empty, and each hardware flag is
    [unsupported] where the architecture is not aarch64 or the kernel
    rejects the query. *)
Theorem capture_never_fails E siginfo ucontext :
  let thread := crashing_thread E siginfo ucontext in
  (proc_comm E (gettid E) = None -> types.thread_name thread = "")
  /\ (proc_cmdline E (getpid E) = None -> types.command_line thread = [])
  /\ (proc_attr_current E = None -> types.selinux_label thread = "")
  /\ (CurrentArch E <> ARCH_ARM64 ->
        types.tagged_addr_ctrl thread = unsupported
        /\ types.pac_enabled_keys thread = unsupported)
  /\ (sys_prctl E PR_GET_TAGGED_ADDR_CTRL = None ->
        types.tagged_addr_ctrl thread = unsupported)
  /\ (sys_prctl E PR_PAC_GET_ENABLED_KEYS = None ->
        types.pac_enabled_keys thread = unsupported)
  /\ types.tid thread = gettid E
  /\ types.siginfo thread = Some siginfo
  /\ types.signo thread = si_signo siginfo.
Proof.
  intros thread. subst thread. unfold crashing_thread. simpl.
  split; [unfold get_thread_name; intros ->; reflexivity|].
  split; [unfold get_command_line; intros ->; reflexivity|].
  split; [intros ->; reflexivity|].
  split; [intros Harch; destruct (CurrentArch E); try (split; reflexivity); contradiction|].
  split; [intros Hctl; unfold prctl; rewrite Hctl; destruct (CurrentArch E); reflexivity|].
  split; [intros Hpac; unfold prctl; rewrite Hpac; destruct (CurrentArch E); reflexivity|].
  repeat split.
Qed.

Lemma capture_never_fails_witness :
  let thread := crashing_thread unreadable_proc segv [] in
  types.thread_name thread = ""
  /\ types.command_line thread = []
  /\ types.selinux_label thread = ""
  /\ types.tagged_addr_ctrl thread = unsupported
  /\ types.pac_enabled_keys thread = unsupported
  /\ types.siginfo thread = Some segv.
Proof.
  destruct (capture_never_fails unreadable_proc segv [])
    as (Hname & Hcmd & Hlabel & _ & Hctl & Hpac & _ & Hsig & _).
  split; [apply Hname; reflexivity|].
  split; [apply Hcmd; reflexivity|].
  split; [apply Hlabel; reflexivity|].
  split; [apply Hctl; reflexivity|].
  split; [apply Hpac; reflexivity | exact Hsig].
Defined.

(** ** The reference of line 86 *)

(** X1: when the crash is on the main thread the siblings copy from the
    crashing thread's entry: every listed tid other than the crashing one
    gets an entry with the crashing thread's uid, pid, command line and
    hardware flags, its own tid and name, no registers and no signal
    record. *)
Lemma siblings_inherit_on_main_thread E siginfo ucontext tids tid :
  getpid E = gettid E ->
  proc_task E (getpid E) = inr tids -> In tid tids -> tid <> gettid E ->
  exists thread,
    map_find tid (collect_threads E siginfo ucontext).2 = Some thread
    /\ synthesized E (crashing_thread E siginfo ucontext) tid thread
    /\ types.siginfo thread = None.
Proof.
  intros Hmain Htask Hin Hne.
  destruct (siblings_copy_referenced_thread E siginfo ucontext tids tid Htask Hin Hne)
    as (thread & Hfind & Hsyn).
  exists thread. split; [exact Hfind|]. split.
  - unfold referenced_thread in Hsyn. rewrite Hmain, Z.eqb_refl in Hsyn. exact Hsyn.
  - destruct (collect_threads_inv E siginfo ucontext) as (_ & _ & Hothers).
    apply (Hothers tid thread Hfind Hne).
Qed.

(** X2: when the crash is on the main thread and the listing cannot be
    read, the mapping holds the crashing thread alone. *)
Lemma unlisted_main_thread_crash_alone E siginfo ucontext errno :
  getpid E = gettid E ->
  proc_task E (getpid E) = inl errno ->
  collect_threads E siginfo ucontext
  = (false, [(gettid E, crashing_thread E siginfo ucontext)]).
Proof.
  intros Hmain Htask. unfold collect_threads, iterate_tids. rewrite Htask.
  cbv zeta. rewrite Hmain. unfold map_subscript. simpl.
  rewrite Z.eqb_refl. reflexivity.
Qed.

(** C1, at a crash on thread 101 of process 100: the entry synthesized for
    the sibling 102 has the fresh name and no registers, but its uid, pid and
    command line are those of a value-initialized [ThreadInfo], not those of
    the crashing thread's entry. *)
Theorem worker_crash_sibling_not_inherited :
  let threads := (collect_threads worker_crash segv []).2 in
  let crashing := crashing_thread worker_crash segv [] in
  map_find 101 threads = Some crashing
  /\ exists sibling,
       map_find 102 threads = Some sibling
       /\ types.thread_name sibling = get_thread_name worker_crash 102
       /\ types.registers sibling = None
       /\ types.uid crashing = 10001 /\ types.uid sibling = 0
       /\ types.pid crashing = 100 /\ types.pid sibling = 0
       /\ types.command_line crashing = ["app"; "--serve"]
       /\ types.command_line sibling = []
       /\ ~ inherits_from crashing sibling.
Proof.
  split; [reflexivity|]. eexists. split; [reflexivity|].
  repeat split. intros (Huid & _). discriminate Huid.
Qed.

(** C2, at a crash on thread 101 of process 100 whose listing cannot be
    read: the call warns and still writes a report, but the report holds two
    thread entries, the crashing thread's and a value-initialized one keyed
    by the pid. *)
Theorem worker_crash_unlisted_reports_two_threads :
  let out := outputs (engrave_tombstone_ucontext worker_crash_unlisted 3 4 0 segv [])
               sample_fds in
  diagnostics out = [failed_to_open_task 100 EACCES]
  /\ map_keys (collect_threads worker_crash_unlisted segv []).2 = [100; 101]
  /\ map_find 100 (collect_threads worker_crash_unlisted segv []).2
     = Some ThreadInfo_init
  /\ exists tombstone,
       proto_written out = [(8%nat, tombstone)]
       /\ thread_id <$> tomb_threads tombstone = [100; 101]
       /\ length (tomb_threads tombstone) = 2%nat.
Proof.
  split; [reflexivity|]. split; [reflexivity|]. split; [reflexivity|].
  eexists. split; [reflexivity|]. split; reflexivity.
Qed.

(** ** The end-to-end scenario

    Crashing tid 100 with signal 11 and a sibling 101 without registers: the
    header names the process and the signal, thread 100 has its backtrace
    and thread 101 is marked as having none. *)
Example end_to_end_rendering :
  text_lines (outputs (engrave_tombstone_ucontext main_crash 3 4 0 segv []) sample_fds)
  = [(HEADER, "pid: 100, tid: 100, uid: 10001" +:+ newline);
     (HEADER, "signal 11" +:+ newline);
     (HEADER, "abort message: absent" +:+ newline);
     (HEADER, "open files: unavailable" +:+ newline);
     (LOGS, "thread 100 main" +:+ newline);
     (LOGS, "  #0 pc 4096 crash" +:+ newline);
     (LOGS, "  #1 pc 8192 unavailable" +:+ newline);
     (LOGS, "thread 101 worker" +:+ newline);
     (LOGS, "no backtrace available" +:+ newline)].
Proof. vm_compute. reflexivity. Qed.

(** A broken proto sink: the failure is logged, nothing reaches the sink and
    the text is rendered all the same. *)
Example proto_write_failure_is_soft :
  let out := outputs (engrave_tombstone_ucontext proto_sink_broken 3 4 0 segv [])
               sample_fds in
  diagnostics out = [failed_to_write_proto EPIPE]
  /\ proto_written out = []
  /\ length (text_lines out) = 9%nat.
Proof. vm_compute. repeat split. Qed.

(** No proto sink: nothing is serialized and nothing is logged. *)
Example no_proto_sink_skips_serialization :
  let out := outputs (engrave_tombstone_ucontext main_crash 3 (-1) 0 segv [])
               sample_fds in
  diagnostics out = [] /\ proto_written out = [] /\ length (text_lines out) = 9%nat.
Proof. vm_compute. repeat split. Qed.

(** ** The mapping in closed form *)

Lemma map_ok_ext {V} (m1 m2 : std_map V) :
  map_ok m1 -> map_ok m2 -> (forall k, map_find k m1 = map_find k m2) -> m1 = m2.
Proof.
  unfold map_ok, map_keys. revert m2.
  induction m1 as [|[k1 v1] m1 IH]; intros [|[k2 v2] m2] Hok1 Hok2 Hfind.
  - reflexivity.
  - specialize (Hfind k2). simpl in Hfind. rewrite Z.eqb_refl in Hfind. discriminate.
  - specialize (Hfind k1). simpl in Hfind. rewrite Z.eqb_refl in Hfind. discriminate.
  - simpl in Hok1, Hok2.
    apply StronglySorted_inv in Hok1 as [Hm1 Hall1].
    apply StronglySorted_inv in Hok2 as [Hm2 Hall2].
    rewrite List.Forall_forall in Hall1, Hall2.
    assert (Hk : k1 = k2).
    { pose proof (Hfind k1) as H1. pose proof (Hfind k2) as H2. simpl in H1, H2.
      rewrite Z.eqb_refl in H1, H2.
      destruct (k1 =? k2) eqn:H12; [apply Z.eqb_eq in H12; exact H12|].
      destruct (k2 =? k1) eqn:H21; [apply Z.eqb_eq in H21; symmetry; exact H21|].
      symmetry in H1. apply map_find_In, (in_map fst) in H1. apply Hall2 in H1.
      apply map_find_In, (in_map fst) in H2. apply Hall1 in H2. simpl in H1, H2. lia. }
    subst k2.
    assert (Hv : v1 = v2).
    { specialize (Hfind k1). simpl in Hfind. rewrite Z.eqb_refl in Hfind. congruence. }
    subst v2. f_equal. apply IH; [exact Hm1 | exact Hm2 |].
    intros k. specialize (Hfind k). simpl in Hfind.
    destruct (k =? k1) eqn:Hkk; [|exact Hfind].
    apply Z.eqb_eq in Hkk; subst k.
    destruct (map_find k1 m1) eqn:F1.
    + apply map_find_In, (in_map fst) in F1. apply Hall1 in F1. simpl in F1. lia.
    + destruct (map_find k1 m2) eqn:F2; [|reflexivity].
      apply map_find_In, (in_map fst) in F2. apply Hall2 in F2. simpl in F2. lia.
Qed.

Lemma map_keys_find {V} (m : std_map V) (k : Z) :
  In k (map_keys m) <-> map_find k m <> None.
Proof.
  unfold map_keys. induction m as [|[k0 v0] m IH]; simpl.
  - split; [contradiction | intros H; apply H; reflexivity].
  - destruct (k =? k0) eqn:Heq.
    + apply Z.eqb_eq in Heq. subst k0. split; [discriminate | left; reflexivity].
    + apply Z.eqb_neq in Heq. rewrite <- IH. split; [intros [H|H]; congruence | right; assumption].
Qed.

Section ClosedForm.
Variable E : Env.
Variables (siginfo : siginfo_t) (ucontext : ucontext_t).

Local Abbreviation target_tid := (gettid E).
Local Abbreviation crashing := (crashing_thread E siginfo ucontext).
Local Abbreviation step := (sibling_thread E (getpid E) target_tid).
Local Abbreviation ref := (map_ref ThreadInfo_init (getpid E)).

Lemma sibling_thread_lookup threads tid k :
  map_find k (step threads tid)
  = if negb (target_tid =? tid) && (k =? tid)
    then Some (sibling_entry E (ref threads) tid)
    else map_find k threads.
Proof.
  unfold sibling_thread. destruct (target_tid =? tid); simpl; [reflexivity|].
  rewrite map_find_assign. destruct (k =? tid); reflexivity.
Qed.

Lemma sibling_entry_reference threads tid k :
  sibling_entry E (ref (step threads tid)) k = sibling_entry E (ref threads) k.
Proof.
  unfold sibling_thread. destruct (target_tid =? tid); [reflexivity|].
  unfold map_ref at 1. rewrite map_find_assign.
  destruct (getpid E =? tid); reflexivity.
Qed.

(** After the walk an entry is the synthesized one for a listed tid other
    than the crashing one, and what it was before for any other key. *)
Lemma walk_lookup tids threads k :
  map_find k (fold_left step tids threads)
  = if negb (k =? target_tid) && bool_decide (k ∈ tids)
    then Some (sibling_entry E (ref threads) k)
    else map_find k threads.
Proof.
  revert threads. induction tids as [|tid tids IH]; intros threads; cbn [fold_left].
  - rewrite bool_decide_eq_false_2 by apply not_elem_of_nil.
    rewrite andb_false_r. reflexivity.
  - rewrite IH, sibling_entry_reference, sibling_thread_lookup.
    destruct (k =? target_tid) eqn:Hkt; simpl.
    + apply Z.eqb_eq in Hkt. subst k.
      destruct (target_tid =? tid); reflexivity.
    + apply Z.eqb_neq in Hkt.
      destruct (decide (k = tid)) as [->|Hne].
      * rewrite (bool_decide_eq_true_2 (tid ∈ tid :: tids)) by apply list_elem_of_here.
        replace (target_tid =? tid) with false by (symmetry; apply Z.eqb_neq; congruence).
        rewrite Z.eqb_refl. simpl.
        case_bool_decide; reflexivity.
      * replace (k =? tid) with false by (symmetry; apply Z.eqb_neq; exact Hne).
        rewrite andb_false_r.
        assert (Hiff : bool_decide (k ∈ tid :: tids) = bool_decide (k ∈ tids)).
        { apply bool_decide_ext. rewrite elem_of_cons. tauto. }
        rewrite Hiff. reflexivity.
Qed.

Lemma collect_threads_listed :
  (collect_threads E siginfo ucontext).1
  = match proc_task E (getpid E) with inl _ => false | inr _ => true end.
Proof.
  unfold collect_threads, iterate_tids. destruct (proc_task E (getpid E)); reflexivity.
Qed.

(** Every lookup in the collected mapping, in closed form. *)
Lemma collect_threads_lookup k :
  map_find k (collect_threads E siginfo ucontext).2
  = if k =? target_tid then Some crashing
    else if listed E k
         then Some (sibling_entry E (referenced_thread E siginfo ucontext) k)
         else if k =? getpid E then Some ThreadInfo_init else None.
Proof.
  unfold collect_threads, iterate_tids, listed.
  destruct (proc_task E (getpid E)) as [errno|tids]; cbv zeta; unfold snd.
  - rewrite map_find_subscript, map_find_assign. simpl.
    destruct (k =? target_tid); reflexivity.
  - rewrite walk_lookup, initial_reference, map_find_subscript, map_find_assign. simpl.
    destruct (k =? target_tid); simpl; [reflexivity|].
    repeat case_bool_decide; first [reflexivity | contradiction].
Qed.
End ClosedForm.

Lemma siblings_inherit_on_main_thread_witness :
  exists thread,
    map_find 101 (collect_threads main_crash segv []).2 = Some thread
    /\ synthesized main_crash (crashing_thread main_crash segv []) 101 thread
    /\ types.siginfo thread = None.
Proof.
  apply (siblings_inherit_on_main_thread main_crash segv [] [100; 101] 101).
  - reflexivity.
  - reflexivity.
  - right; left; reflexivity.
  - discriminate.
Defined.

Lemma unlisted_main_thread_crash_alone_witness :
  collect_threads main_crash_unlisted segv []
  = (false, [(100, crashing_thread main_crash_unlisted segv [])]).
Proof.
  apply (unlisted_main_thread_crash_alone main_crash_unlisted segv [] EACCES);
    reflexivity.
Defined.

(** X3: every listed tid other than the crashing one is mapped to the entry
    the lambda synthesizes from the entry keyed by the pid, however often
    and in whatever order the listing names it. *)
Theorem listed_sibling_closed_form E siginfo ucontext k :
  listed E k = true -> k <> gettid E ->
  map_find k (collect_threads E siginfo ucontext).2
  = Some (sibling_entry E (referenced_thread E siginfo ucontext) k).
Proof.
  intros Hlisted Hne. rewrite collect_threads_lookup, Hlisted.
  replace (k =? gettid E) with false by (symmetry; apply Z.eqb_neq; exact Hne).
  reflexivity.
Qed.

Lemma listed_sibling_closed_form_witness :
  map_find 102 (collect_threads worker_crash segv []).2
  = Some (sibling_entry worker_crash ThreadInfo_init 102).
Proof.
  apply (listed_sibling_closed_form worker_crash segv [] 102).
  - reflexivity.
  - discriminate.
Defined.

(** X4: the tids of the mapping are the crashing tid, the pid, and the tids
    of the listing when it could be read; nothing else gets an entry. *)
Theorem collected_tids E siginfo ucontext k :
  In k (map_keys (collect_threads E siginfo ucontext).2)
  <-> k = gettid E \/ k = getpid E \/ listed E k = true.
Proof.
  rewrite map_keys_find, collect_threads_lookup.
  destruct (k =? gettid E) eqn:Ht.
  - apply Z.eqb_eq in Ht. split; [left; exact Ht | discriminate].
  - apply Z.eqb_neq in Ht. destruct (listed E k).
    + split; [right; right; reflexivity | discriminate].
    + destruct (k =? getpid E) eqn:Hp.
      * apply Z.eqb_eq in Hp. split; [right; left; exact Hp | discriminate].
      * apply Z.eqb_neq in Hp. split; [congruence|].
        intros [H|[H|H]]; [contradiction | contradiction | discriminate].
Qed.

(** X5: only the crashing thread's entry carries context: every other
    entry of the mapping has no registers, an empty security label, signal
    number zero and no signal record. *)
Theorem only_crashing_thread_has_context E siginfo ucontext k thread :
  map_find k (collect_threads E siginfo ucontext).2 = Some thread ->
  k <> gettid E ->
  types.registers thread = None
  /\ types.selinux_label thread = ""
  /\ types.signo thread = 0
  /\ types.siginfo thread = None.
Proof.
  rewrite collect_threads_lookup. intros Hfind Hne.
  replace (k =? gettid E) with false in Hfind by (symmetry; apply Z.eqb_neq; exact Hne).
  destruct (listed E k); [injection Hfind as <-; repeat split|].
  destruct (k =? getpid E); [injection Hfind as <-; repeat split | discriminate].
Qed.

Lemma only_crashing_thread_has_context_witness :
  exists thread,
    map_find 100 (collect_threads worker_crash segv []).2 = Some thread
    /\ types.registers thread = None
    /\ types.selinux_label thread = ""
    /\ types.signo thread = 0
    /\ types.siginfo thread = None.
Proof.
  eexists. split; [reflexivity|].
  apply (only_crashing_thread_has_context worker_crash segv [] 100).
  - reflexivity.
  - discriminate.
Defined.

(** X6: the mapping does not depend on the order in which the listing names
    the tids, nor on how often it names one: two listings with the same tids
    give the same mapping. *)
Theorem listing_order_irrelevant E siginfo ucontext tids tids' :
  (forall k, k ∈ tids <-> k ∈ tids') ->
  collect_threads (with_listing E (inr tids)) siginfo ucontext
  = collect_threads (with_listing E (inr tids')) siginfo ucontext.
Proof.
  intros Hsame. apply injective_projections.
  - rewrite !collect_threads_listed. reflexivity.
  - apply map_ok_ext.
    + apply (collect_threads_inv (with_listing E (inr tids)) siginfo ucontext).
    + apply (collect_threads_inv (with_listing E (inr tids')) siginfo ucontext).
    + intros k. rewrite !collect_threads_lookup.
      assert (Hlisted : listed (with_listing E (inr tids)) k
                        = listed (with_listing E (inr tids')) k).
      { unfold listed. simpl. apply bool_decide_ext, Hsame. }
      rewrite Hlisted. reflexivity.
Qed.

Lemma listing_order_irrelevant_witness :
  collect_threads (with_listing main_crash (inr [100; 101; 102])) segv []
  = collect_threads (with_listing main_crash (inr [102; 101; 101; 100])) segv [].
Proof.
  apply (listing_order_irrelevant main_crash segv [] [100; 101; 102] [102; 101; 101; 100]).
  intros k. rewrite !elem_of_cons, !elem_of_nil. tauto.
Defined.

(** ** Diagnostics, descriptors and routing *)

Lemma diagnostics_serialization_output E fds proto_fd tombstone msg :
  In msg (diagnostics (serialization_output E fds proto_fd tombstone)) ->
  exists errno, msg = failed_to_write_proto errno.
Proof.
  destruct (serialization_output_cases E fds proto_fd tombstone)
    as [[_ ->]|[[_ [errno ->]]|[_ (file & _ & _ & ->)]]]; simpl;
    [contradiction | intros [<-|[]]; eauto | contradiction].
Qed.

(** X7: the warning about the thread listing is logged exactly when the
    listing cannot be read, whether or not the unwinder initializes, and it
    names the pid and the [errno]. *)
Theorem listing_warning_iff E tombstone_fd proto_fd abort_msg_address siginfo
    ucontext fds p errno :
  In (failed_to_open_task p errno)
     (diagnostics (outputs (engrave_tombstone_ucontext E tombstone_fd proto_fd
                              abort_msg_address siginfo ucontext) fds))
  <-> p = getpid E /\ proc_task E (getpid E) = inl errno.
Proof.
  assert (Hwarn : forall rest,
            (forall e, ~ In (failed_to_open_task p e) (diagnostics rest)) ->
            In (failed_to_open_task p errno)
               (diagnostics
                  ((if (collect_threads E siginfo ucontext).1 then []
                    else [Diagnostic (failed_to_open_task (getpid E)
                                        (task_errno E (getpid E)))]) ++ rest))
            <-> p = getpid E /\ proc_task E (getpid E) = inl errno).
  { intros rest Hrest. unfold diagnostics. rewrite omap_app. fold (diagnostics rest).
    rewrite in_app_iff, collect_threads_listed. unfold task_errno.
    destruct (proc_task E (getpid E)) as [e|tids]; simpl.
    - split.
      + intros [[[= -> ->]|[]]|H]; [split; reflexivity | destruct (Hrest _ H)].
      + intros [-> [= ->]]. left; left; reflexivity.
    - split; [intros [[]|H]; destruct (Hrest _ H) | intros [_ [=]]]. }
  destruct (Initialize E) as [code|unwinder] eqn:Hinit.
  - unfold outputs.
    rewrite (engrave_tombstone_ucontext_abort _ _ _ _ _ _ _ _ Hinit). simpl snd.
    apply Hwarn. intros e [[=]|[]].
  - destruct (engrave_tombstone_ucontext_run E tombstone_fd proto_fd abort_msg_address
                siginfo ucontext fds unwinder Hinit) as [-> _].
    apply Hwarn. intros e Hin.
    match goal with H : In _ (diagnostics (outputs (engrave_tombstone ?E ?o ?p ?u ?t ?tt ?pi ?f ?a ?g ?gu) ?s)) |- _ =>
      destruct (engrave_tombstone_projections E o p u t tt pi f a g gu s) as (_ & Hd & _);
      rewrite Hd in H; apply diagnostics_serialization_output in H as [e' [=]] end.
Qed.

(** X8: [engrave_tombstone] owns the two descriptors it is given: when it
    returns both are closed and every other descriptor names the file it
    named before. *)
Theorem engrave_tombstone_consumes_descriptors E output_fd proto_fd unwinder
    threads target_thread process_info open_files amfd_data guest_arch
    guest_unwinder fds x :
  fd_get (fds_after (engrave_tombstone E output_fd proto_fd unwinder threads
                       target_thread process_info open_files amfd_data guest_arch
                       guest_unwinder) fds) x
  = if ((0 <=? output_fd) && (x =? output_fd)) || ((0 <=? proto_fd) && (x =? proto_fd))
    then None
    else fd_get fds x.
Proof.
  destruct (engrave_tombstone_run E output_fd proto_fd unwinder threads target_thread
              process_info open_files amfd_data guest_arch guest_unwinder fds)
    as [_ ->].
  rewrite !fd_get_released.
  destruct ((0 <=? output_fd) && (x =? output_fd)); simpl; [reflexivity|].
  destruct ((0 <=? proto_fd) && (x =? proto_fd)); reflexivity.
Qed.

Lemma text_destinations_rendered file (lines : list (string * bool)) :
  text_destinations (rendered_output file <$> lines) = (fun _ => file) <$> lines.
Proof.
  induction lines as [|entry lines IH]; [reflexivity|].
  change (file :: text_destinations (rendered_output file <$> lines)
          = file :: ((fun _ => file) <$> lines)).
  rewrite IH. reflexivity.
Qed.

(** X9: in [engrave_tombstone] the proto is written, or its failure logged,
    before the first text line: what is sent out splits into a part without
    text lines followed by the rendered lines alone. *)
Theorem serialization_precedes_text E output_fd proto_fd unwinder threads
    target_thread process_info open_files amfd_data guest_arch guest_unwinder fds :
  let out := outputs (engrave_tombstone E output_fd proto_fd unwinder threads
                        target_thread process_info open_files amfd_data guest_arch
                        guest_unwinder) fds in
  let tombstone := engrave_tombstone_proto unwinder threads target_thread
                     process_info open_files guest_arch guest_unwinder in
  exists before text,
    out = before ++ text
    /\ text_lines before = []
    /\ proto_written text = [] /\ diagnostics text = []
    /\ text_lines text = logged_line <$> render tombstone
    /\ text_destinations text = (fun _ => fd_get fds output_fd) <$> render tombstone.
Proof.
  intros out tombstone. subst out.
  destruct (engrave_tombstone_run E output_fd proto_fd unwinder threads target_thread
              process_info open_files amfd_data guest_arch guest_unwinder fds)
    as [-> _].
  fold tombstone. eexists _, _. split; [reflexivity|].
  split.
  { destruct (serialization_output_cases E fds proto_fd tombstone)
      as [[_ ->]|[[_ [errno ->]]|[_ (file & _ & _ & ->)]]]; reflexivity. }
  split; [apply proto_written_rendered|].
  split; [apply diagnostics_rendered|].
  split; [apply text_lines_rendered|].
  apply text_destinations_rendered.
Qed.

Lemma fd_get_negative (fds : fd_table) (fd : Z) : fd < 0 -> fd_get fds fd = None.
Proof.
  intros Hneg. unfold fd_get.
  replace (fd <? 0) with true by (symmetry; apply Z.ltb_lt; exact Hneg). reflexivity.
Qed.


Lemma dup_closed E fd fds :
  fd_get fds fd = None ->
  result (dup E fd) fds = -1 /\ fds_after (dup E fd) fds = fds.
Proof.
  intros Hclosed. unfold result, fds_after, dup. rewrite Hclosed. split; reflexivity.
Qed.


(** X10: without a proto sink ([proto_fd] negative, [-1] in particular)
    [engrave_tombstone_ucontext] skips serialization silently: nothing is
    written, no write failure is logged, and the text is rendered in full. *)
Theorem negative_proto_fd_skips_silently E tombstone_fd proto_fd abort_msg_address
    siginfo ucontext fds unwinder :
  Initialize E = inr unwinder -> proto_fd < 0 ->
  let out := outputs (engrave_tombstone_ucontext E tombstone_fd proto_fd
                        abort_msg_address siginfo ucontext) fds in
  proto_written out = []
  /\ (forall errno, ~ In (failed_to_write_proto errno) (diagnostics out))
  /\ text_lines out
     = logged_line <$> render (engrave_tombstone_proto unwinder
                                 (collect_threads E siginfo ucontext).2 (gettid E)
                                 {| abort_msg_address := abort_msg_address |}
                                 None None None).
Proof.
  intros Hinit Hneg out. subst out.
  destruct (engrave_tombstone_ucontext_run E tombstone_fd proto_fd abort_msg_address
              siginfo ucontext fds unwinder Hinit) as [-> _].
  set (fds1 := fds_after (dup E tombstone_fd) fds).
  destruct (dup_closed E proto_fd fds1 (fd_get_negative fds1 proto_fd Hneg)) as [-> ->].
  match goal with |- context [outputs (engrave_tombstone ?E ?o ?p ?u ?t ?tt ?pi ?f ?a ?g ?gu) ?s] =>
    destruct (engrave_tombstone_projections E o p u t tt pi f a g gu s) as (Hp & Hd & _);
    pose proof (engrave_tombstone_text_lines E o p u t tt pi f a g gu s) as Ht end.
  unfold proto_written, diagnostics, text_lines in *. rewrite !omap_app.
  rewrite Hp, Hd, Ht.
  destruct (collect_threads E siginfo ucontext).1; simpl.
  - split; [reflexivity|]. split; [intros errno []|reflexivity].
  - split; [reflexivity|]. split; [intros errno [[=]|[]]|reflexivity].
Qed.

Lemma negative_proto_fd_skips_silently_witness :
  let out := outputs (engrave_tombstone_ucontext main_crash 3 (-1) 0 segv []) sample_fds in
  proto_written out = []
  /\ (forall errno, ~ In (failed_to_write_proto errno) (diagnostics out))
  /\ text_lines out
     = logged_line <$> render (engrave_tombstone_proto sample_unwinder
                                 (collect_threads main_crash segv []).2 100
                                 {| abort_msg_address := 0 |} None None None).
Proof.
  apply (negative_proto_fd_skips_silently main_crash 3 (-1) 0 segv [] sample_fds
           sample_unwinder).
  - reflexivity.
  - reflexivity.
Defined.



(** X12: in [engrave_tombstone] a proto sink other than [-1] is always
    attempted: when the write to its file fails the [errno] of that write is
    logged once, nothing reaches the sink, and the text is rendered in
    full. *)
Theorem failed_proto_write_is_logged E output_fd proto_fd unwinder threads
    target_thread process_info open_files amfd_data guest_arch guest_unwinder fds
    file errno :
  fd_get fds proto_fd = Some file -> write_error E file = Some errno ->
  let out := outputs (engrave_tombstone E output_fd proto_fd unwinder threads
                        target_thread process_info open_files amfd_data guest_arch
                        guest_unwinder) fds in
  diagnostics out = [failed_to_write_proto errno]
  /\ proto_written out = []
  /\ text_lines out
     = logged_line <$> render (engrave_tombstone_proto unwinder threads target_thread
                                 process_info open_files guest_arch guest_unwinder).
Proof.
  intros Hopen Hwrite out. subst out.
  destruct (engrave_tombstone_projections E output_fd proto_fd unwinder threads
              target_thread process_info open_files amfd_data guest_arch
              guest_unwinder fds) as (-> & -> & _).
  rewrite engrave_tombstone_text_lines.
  unfold serialization_output.
  destruct (proto_fd =? -1) eqn:Hm.
  - apply Z.eqb_eq in Hm. subst proto_fd. discriminate Hopen.
  - rewrite Hopen, Hwrite. repeat split.
Qed.

Lemma failed_proto_write_is_logged_witness :
  let out := outputs (engrave_tombstone proto_sink_broken 3 4 sample_unwinder
                        sample_threads 100 {| abort_msg_address := 0 |}
                        None None None None) sample_fds in
  diagnostics out = [failed_to_write_proto EPIPE]
  /\ proto_written out = []
  /\ text_lines out
     = logged_line <$> render (engrave_tombstone_proto sample_unwinder sample_threads
                                 100 {| abort_msg_address := 0 |} None None None).
Proof.
  apply (failed_proto_write_is_logged proto_sink_broken 3 4 sample_unwinder
           sample_threads 100 {| abort_msg_address := 0 |} None None None None
           sample_fds 8%nat EPIPE); reflexivity.
Defined.
